(** * A chained hash table in C (hashtable.c): shallow embedding

    The C program keeps its nodes on the heap and links them with raw
    pointers.  The embedding below keeps that shape: a node heap is a
    finite map from addresses to node records, a pointer is an optional
    address, the bucket array is a list of pointers, and every function
    of the source is a Rocq function over that state.  Undefined
    behaviour (null or dangling dereference, out-of-bounds index) and
    loops that do not finish within the given number of iterations are
    explicit outcomes. *)

From Stdlib Require Import ZArith Ascii String Lia.
From stdpp Require Import base option list gmap.

Local Open Scope Z_scope.

(** ** Constants of the source *)

Definition HASHTABLE_NODE_COUNT : Z := 100.
Definition HASHTABLE_KEY_SIZE : nat := 32.

(** ** C characters and the string functions of <string.h>

    A [char *] argument is a Rocq [string]: the bytes before the
    terminator, the terminator itself being implicit at the end (a NUL
    byte inside the string ends the C string earlier, as it would in
    memory).  A [char key[HASHTABLE_KEY_SIZE]] buffer is the string of
    its bytes. *)

Definition NUL : ascii := Ascii.zero.

Definition is_nul (c : ascii) : bool := Ascii.eqb c NUL.

(** [s[0]]: the first byte of the C string, NUL when it is empty. *)
Definition head_char (s : string) : ascii :=
  match s with
  | EmptyString => NUL
  | String c _ => c
  end.

(** [s + 1] *)
Definition tail_str (s : string) : string :=
  match s with
  | EmptyString => EmptyString
  | String _ s' => s'
  end.

(** The value of a byte as [unsigned char]. *)
Definition uchar (c : ascii) : Z := Z.of_N (N_of_ascii c).

(** The value of a [char] converted to [int].  Whether plain [char] is
    signed is implementation-defined in C; [char_signed] is [true] for
    gcc on x86 and x86-64. *)
Definition char_to_int (char_signed : bool) (c : ascii) : Z :=
  if char_signed && (128 <=? uchar c) then uchar c - 256 else uchar c.

(** [strnlen(s, maxlen)] *)
Fixpoint strnlen (s : string) (maxlen : nat) : nat :=
  match maxlen, s with
  | S m, String c s' => if is_nul c then O else S (strnlen s' m)
  | _, _ => O
  end.

(** [strncmp(s1, s2, n)]: bytes are compared as [unsigned char]; the
    scan stops at the first difference, at a NUL, or after [n] bytes. *)
Fixpoint strncmp (s1 s2 : string) (n : nat) : Z :=
  match n with
  | O => 0
  | S m =>
      let c1 := head_char s1 in
      let c2 := head_char s2 in
      if negb (Ascii.eqb c1 c2) then uchar c1 - uchar c2
      else if is_nul c1 then 0
      else strncmp (tail_str s1) (tail_str s2) m
  end.

(** [strncpy(dst, src, n)]: the [n] bytes written to [dst].  Bytes of
    [src] are copied up to its terminator; the rest of the [n] bytes is
    filled with NUL.  When [src] has [n] or more bytes before its
    terminator, no NUL is written. *)
Fixpoint strncpy (src : string) (n : nat) : string :=
  match n with
  | O => EmptyString
  | S m =>
      let c := head_char src in
      String c (strncpy (if is_nul c then EmptyString else tail_str src) m)
  end.

(** ** Outcomes of running C code

    [Done a]: the call returns [a].  [Fault]: the call has undefined
    behaviour (it dereferences a null or dangling pointer, or indexes
    the bucket array out of bounds).  [Timeout]: a loop was still
    running after the allowed number of iterations. *)

Inductive outcome (A : Type) : Type :=
  | Done (a : A)
  | Fault
  | Timeout.

Arguments Done {A} a.
Arguments Fault {A}.
Arguments Timeout {A}.

(** Sequencing: the first [Fault] or [Timeout] ends the run.  The
    notation [x ← m; f] below is stdpp's, for this instance. *)
#[global] Instance outcome_bind : MBind outcome := fun A B f m =>
  match m with
  | Done a => f a
  | Fault => Fault
  | Timeout => Timeout
  end.

(** ** The node heap

    [hashtable_node_t *] is an optional address; [NULL] is [None]. *)

Abbreviation ptr := (option positive).
Abbreviation NULL := (@None positive).

Record hashtable_node_t : Type := Node {
  next : ptr;
  key : string;      (* char key[HASHTABLE_KEY_SIZE] *)
  value : Z          (* int value *)
}.

Abbreviation heap := (gmap positive hashtable_node_t).

(** [*p] *)
Definition load (h : heap) (p : ptr) : outcome hashtable_node_t :=
  match p with
  | None => Fault
  | Some a =>
      match h !! a with
      | Some n => Done n
      | None => Fault
      end
  end.

(** [p->next = q] *)
Definition store_next (h : heap) (p : ptr) (q : ptr) : outcome heap :=
  match p with
  | None => Fault
  | Some a =>
      match h !! a with
      | Some n => Done (<[a := Node q (key n) (value n)]> h)
      | None => Fault
      end
  end.

(** [p->value = v] *)
Definition store_value (h : heap) (p : ptr) (v : Z) : outcome heap :=
  match p with
  | None => Fault
  | Some a =>
      match h !! a with
      | Some n => Done (<[a := Node (next n) (key n) v]> h)
      | None => Fault
      end
  end.

(** ** Node functions *)

(** The loop of [hashtable_node_insert]:
    [for(; current->next != NULL; current = current->next);]
    It returns the final value of [current]. *)
Fixpoint insert_walk (fuel : nat) (h : heap) (current : ptr) : outcome ptr :=
  match fuel with
  | O => Timeout
  | S fuel' =>
      c ← load h current;
      match next c with
      | None => Done current
      | Some _ => insert_walk fuel' h (next c)
      end
  end.

Definition hashtable_node_insert (fuel : nat) (h : heap) (parent child : ptr)
  : outcome heap :=
  p ← load h parent;
  match next p with
  | None => store_next h parent child
  | Some _ =>
      current ← insert_walk fuel h (next p);
      h1 ← store_next h current child;
      store_next h1 child NULL
  end.

(** The loop of [hashtable_node_find_by_key]. *)
Fixpoint find_loop (fuel : nat) (h : heap) (current : ptr) (k : string)
  : outcome ptr :=
  match current with
  | None => Done NULL
  | Some _ =>
      match fuel with
      | O => Timeout
      | S fuel' =>
          c ← load h current;
          if strncmp (key c) k HASHTABLE_KEY_SIZE =? 0 then Done current
          else find_loop fuel' h (next c) k
      end
  end.

Definition hashtable_node_find_by_key (fuel : nat) (h : heap) (node : ptr)
  (k : string) : outcome ptr :=
  if (HASHTABLE_KEY_SIZE <=? strnlen k HASHTABLE_KEY_SIZE)%nat then Done NULL
  else find_loop fuel h node k.

(** [hashtable_node_create].  [aux] is what [malloc] returned: [NULL],
    or the address of a block that is not in use. *)
Definition hashtable_node_create (aux : ptr) (k : string) (v : Z) (h : heap)
  : ptr * heap :=
  match aux with
  | None => (NULL, h)
  | Some a => (Some a, <[a := Node NULL (strncpy k HASHTABLE_KEY_SIZE) v]> h)
  end.

(** What [malloc] promises about the block it returns. *)
Definition fresh_for (aux : ptr) (h : heap) : Prop :=
  match aux with
  | None => True
  | Some a => h !! a = None
  end.

(** ** The table *)

Record hashtable_t : Type := Table {
  array : list ptr   (* hashtable_node_t *array[HASHTABLE_NODE_COUNT] *)
}.

(** [ht->array[i]] *)
Definition array_at (ht : hashtable_t) (i : Z) : outcome ptr :=
  if (0 <=? i) && (i <? HASHTABLE_NODE_COUNT) then
    match array ht !! Z.to_nat i with
    | Some p => Done p
    | None => Fault
    end
  else Fault.

(** [ht->array[i] = p] *)
Definition array_put (ht : hashtable_t) (i : Z) (p : ptr) : outcome hashtable_t :=
  if (0 <=? i) && (i <? HASHTABLE_NODE_COUNT) then
    match array ht !! Z.to_nat i with
    | Some _ => Done (Table (<[Z.to_nat i := p]> (array ht)))
    | None => Fault
    end
  else Fault.

(** [hashtable_create]: [malloc_ok] tells whether [malloc] could obtain
    the table; [memset] makes every slot [NULL]. *)
Definition hashtable_create (malloc_ok : bool) : option hashtable_t :=
  if malloc_ok then Some (Table (replicate (Z.to_nat HASHTABLE_NODE_COUNT) NULL))
  else None.

(** The loop of [hashtable_get]. *)
Fixpoint get_loop (fuel : nat) (h : heap) (current : ptr) (k : string)
  : outcome Z :=
  match current with
  | None => Done 0
  | Some _ =>
      match fuel with
      | O => Timeout
      | S fuel' =>
          c ← load h current;
          if strncmp (key c) k HASHTABLE_KEY_SIZE =? 0 then Done (value c)
          else get_loop fuel' h (next c) k
      end
  end.

Section CharSignedness.

Variable char_signed : bool.

(** The loop of [calculate_hash]:
    [for(int i = 0; key[i] && i < HASHTABLE_KEY_SIZE; ++i) sum += key[i];]
    [left] is [HASHTABLE_KEY_SIZE - i].  [key[i]] is tested before the
    bound, as in the source.  The sum of at most 32 [char] values stays
    far inside the range of [int] (lemma [hash_loop_bounds]), so no
    wrap-around is written. *)
Fixpoint hash_loop (k : string) (left : nat) (sum : Z) : Z :=
  if is_nul (head_char k) then sum
  else
    match left with
    | O => sum
    | S m => hash_loop (tail_str k) m (sum + char_to_int char_signed (head_char k))
    end.

(** [calculate_hash]: C's [%] truncates towards zero, hence [Z.rem]. *)
Definition calculate_hash (k : string) : Z :=
  Z.rem (hash_loop k HASHTABLE_KEY_SIZE 0) HASHTABLE_NODE_COUNT.

Definition hashtable_get (fuel : nat) (ht : hashtable_t) (h : heap) (k : string)
  : outcome Z :=
  let hash := calculate_hash k in
  head ← array_at ht hash;
  get_loop fuel h head k.

(** [hashtable_set] returns its [int] result together with the table
    and the heap as it leaves them.  The node is created before the
    bucket is looked at, as in the source. *)
Definition hashtable_set (aux : ptr) (fuel : nat) (ht : hashtable_t) (h : heap)
  (k : string) (v : Z) : outcome (Z * hashtable_t * heap) :=
  let hash := calculate_hash k in
  let '(node, h1) := hashtable_node_create aux k v h in
  match node with
  | None => Done (-1, ht, h1)
  | Some _ =>
      head ← array_at ht hash;
      match head with
      | None =>
          ht1 ← array_put ht hash node;
          Done (0, ht1, h1)
      | Some _ =>
          found ← hashtable_node_find_by_key fuel h1 head k;
          match found with
          | None =>
              h2 ← hashtable_node_insert fuel h1 head node;
              Done (0, ht, h2)
          | Some _ =>
              h2 ← store_value h1 found v;
              Done (0, ht, h2)
          end
      end
  end.

End CharSignedness.

(** ** Notions used to state the properties *)

(** [strlen(s)]: the bytes before the terminator. *)
Fixpoint strlen (s : string) : nat :=
  match s with
  | EmptyString => O
  | String c s' => if is_nul c then O else S (strlen s')
  end.

(** A key the lookup accepts: its length is below [HASHTABLE_KEY_SIZE]. *)
Definition short_key (k : string) : Prop :=
  (strlen k < HASHTABLE_KEY_SIZE)%nat.

(** The first min(length, K) bytes of a key, in the words of the
    specification of the hash. *)
Definition key_prefix (k : string) : list ascii :=
  take (Nat.min (strlen k) HASHTABLE_KEY_SIZE) (list_ascii_of_string k).

(** The sum of the values of some bytes, each taken as a [char]. *)
Definition byte_sum (char_signed : bool) (l : list ascii) : Z :=
  foldr (fun c acc => char_to_int char_signed c + acc) 0 l.

(** Is there a terminator within the [n] bytes of a buffer? *)
Definition nul_terminated (buf : string) (n : nat) : bool :=
  (strnlen buf n <? n)%nat.

(** A bucket's chain as the list of its nodes, head first: address,
    stored key, stored value.  The successor links are what makes the
    list a chain in the heap. *)
Definition entry : Type := positive * string * Z.

Definition e_addr (e : entry) : positive := e.1.1.
Definition e_key (e : entry) : string := e.1.2.
Definition e_value (e : entry) : Z := e.2.

Fixpoint chain (h : heap) (p : ptr) (l : list entry) : Prop :=
  match l with
  | [] => p = NULL
  | e :: l' =>
      p = Some (e_addr e) /\
      exists nx, h !! e_addr e = Some (Node nx (e_key e) (e_value e)) /\
                 chain h nx l'
  end.

(** The test [hashtable_node_find_by_key] applies to a stored key. *)
Definition find_matches (k stored : string) : bool :=
  negb (HASHTABLE_KEY_SIZE <=? strnlen k HASHTABLE_KEY_SIZE)%nat
  && (strncmp stored k HASHTABLE_KEY_SIZE =? 0).

(** The test [hashtable_get] applies to a stored key. *)
Definition get_matches (k stored : string) : bool :=
  strncmp stored k HASHTABLE_KEY_SIZE =? 0.

(** What a successful [hashtable_set] makes of a chain: the first node
    that [find] accepts gets the value, otherwise the node at [a] is
    appended. *)
Fixpoint set_entries (a : positive) (k : string) (v : Z) (l : list entry)
  : list entry :=
  match l with
  | [] => [(a, strncpy k HASHTABLE_KEY_SIZE, v)]
  | e :: l' =>
      if find_matches k (e_key e) then (e_addr e, e_key e, v) :: l'
      else e :: set_entries a k v l'
  end.

(** What [hashtable_node_find_by_key] answers on a chain. *)
Fixpoint find_entries (k : string) (l : list entry) : ptr :=
  match l with
  | [] => NULL
  | e :: l' => if find_matches k (e_key e) then Some (e_addr e) else find_entries k l'
  end.

(** What [hashtable_get] reads off a chain. *)
Fixpoint get_entries (k : string) (l : list entry) : Z :=
  match l with
  | [] => 0
  | e :: l' => if get_matches k (e_key e) then e_value e else get_entries k l'
  end.

(** The heap after [hashtable_node_insert] has linked the node at [a]
    behind the last node [z] of a chain. *)
Definition link_last (h : heap) (z : entry) (a : positive) (ka : string) (va : Z)
  : heap :=
  <[a := Node NULL ka va]>
    (<[e_addr z := Node (Some a) (e_key z) (e_value z)]> h).

(** A table whose array has its declared size and whose buckets are
    chains of the heap. *)
Definition table_ok (ht : hashtable_t) (h : heap) : Prop :=
  List.length (array ht) = Z.to_nat HASHTABLE_NODE_COUNT /\
  forall i p, array ht !! i = Some p -> exists l, chain h p l.

(** The freshly created table. *)
Definition fresh_table : hashtable_t :=
  Table (replicate (Z.to_nat HASHTABLE_NODE_COUNT) NULL).

(** What holds of every bucket of a table built by [hashtable_set] from
    keys the lookup accepts: the bucket is a chain, its stored keys are
    pairwise different, and each hashes to the bucket's index. *)
Definition bucket_inv (char_signed : bool) (h : heap) (i : nat) (p : ptr) : Prop :=
  exists l, chain h p l /\
            NoDup (e_key <$> l) /\
            Forall (fun s => calculate_hash char_signed s = Z.of_nat i) (e_key <$> l).

Definition table_inv (char_signed : bool) (ht : hashtable_t) (h : heap) : Prop :=
  List.length (array ht) = Z.to_nat HASHTABLE_NODE_COUNT /\
  forall i p, array ht !! i = Some p -> bucket_inv char_signed h i p.

(** No two nodes of one chain store the same key. *)
Definition distinct_keys (ht : hashtable_t) (h : heap) : Prop :=
  forall i p l, array ht !! i = Some p -> chain h p l -> NoDup (e_key <$> l).

(** No two nodes of the whole table store the same key: nodes with the
    same stored key are in the same bucket and are the same node. *)
Definition distinct_keys_table (ht : hashtable_t) (h : heap) : Prop :=
  forall i j p q li lj e e',
    array ht !! i = Some p -> chain h p li -> e ∈ li ->
    array ht !! j = Some q -> chain h q lj -> e' ∈ lj ->
    e_key e = e_key e' -> i = j /\ e = e'.

Section Reachable.

Variable char_signed : bool.

(** The tables that calls of [hashtable_set] with keys satisfying
    [allowed] build from a freshly created table.  Each call gets its
    own [malloc] result and its own iteration bound. *)
Inductive reachable (allowed : string -> Prop) : hashtable_t -> heap -> Prop :=
  | reach_create ht h :
      hashtable_create true = Some ht ->
      reachable allowed ht h
  | reach_set ht h aux fuel k v r ht' h' :
      reachable allowed ht h ->
      allowed k ->
      fresh_for aux h ->
      hashtable_set char_signed aux fuel ht h k v = Done (r, ht', h') ->
      reachable allowed ht' h'.

End Reachable.

(** ** Inputs of the examples *)

(** The one-byte key whose byte is 0xFF. *)
Definition key_ff : string := String "255"%char EmptyString.

(** The two bytes 0xC3 0xA9, the UTF-8 encoding of e with acute accent. *)
Definition key_utf8 : string := String "195"%char (String "169"%char EmptyString).

(** A key of exactly [HASHTABLE_KEY_SIZE] bytes, and a longer one that
    starts with the same bytes. *)
Definition long_key : string := "aaaaaaaaaaaaaaaaaaaaaaaaaaaaaaaa".
Definition longer_key : string := "aaaaaaaaaaaaaaaaaaaaaaaaaaaaaaaabbbbbbbb".

(** A heap with a one-node chain at address 1, and a node at address 2
    whose successor link points to the node at address 3. *)
Definition linked_child_heap : heap :=
  <[1%positive := Node NULL "p" 1]>
    (<[2%positive := Node (Some 3%positive) "c" 2]>
       (<[3%positive := Node NULL "x" 3]> ∅)).

(** The table and the heap a call of [hashtable_set] leaves. *)
Definition table_of (o : outcome (Z * hashtable_t * heap)) : hashtable_t :=
  match o with
  | Done (_, ht, _) => ht
  | _ => fresh_table
  end.

Definition heap_of (o : outcome (Z * hashtable_t * heap)) : heap :=
  match o with
  | Done (_, _, h) => h
  | _ => ∅
  end.

(** The three calls of [main], with [malloc] handing out the addresses
    1, 2 and 3.  "eric" and "erhd" share bucket 19. *)
Definition after_eric : outcome (Z * hashtable_t * heap) :=
  hashtable_set true (Some 1%positive) 8 fresh_table ∅ "eric" 111.

Definition after_erhd : outcome (Z * hashtable_t * heap) :=
  hashtable_set true (Some 2%positive) 8
    (table_of after_eric) (heap_of after_eric) "erhd" 222.

Definition after_john : outcome (Z * hashtable_t * heap) :=
  hashtable_set true (Some 3%positive) 8
    (table_of after_erhd) (heap_of after_erhd) "john" 333.

(** A second call for "eric" after the first. *)
Definition after_eric_again : outcome (Z * hashtable_t * heap) :=
  hashtable_set true (Some 2%positive) 8
    (table_of after_eric) (heap_of after_eric) "eric" 222.

(** Two calls with the same key of [HASHTABLE_KEY_SIZE] bytes. *)
Definition after_long : outcome (Z * hashtable_t * heap) :=
  hashtable_set true (Some 1%positive) 8 fresh_table ∅ long_key 1.

Definition after_long_again : outcome (Z * hashtable_t * heap) :=
  hashtable_set true (Some 2%positive) 8
    (table_of after_long) (heap_of after_long) long_key 2.

(** ** The rest of the source: releasing memory *)

(** [hashtable_node_free]: [free(node)].  [free(NULL)] does nothing;
    freeing a block that is not allocated is undefined. *)
Definition hashtable_node_free (h : heap) (node : ptr) : outcome heap :=
  match node with
  | None => Done h
  | Some a =>
      match h !! a with
      | Some _ => Done (delete a h)
      | None => Fault
      end
  end.

(** The memory of the program: the blocks that hold tables and the
    blocks that hold nodes.  A [hashtable_t *] is an optional address
    into the first. *)
Record memory : Type := Memory {
  tables : gmap positive hashtable_t;
  nodes : heap
}.

(** [hashtable_create] with the table placed in memory; [aux] is what
    [malloc] returned. *)
Definition hashtable_create_in (aux : ptr) (m : memory) : ptr * memory :=
  match aux with
  | None => (NULL, m)
  | Some a =>
      (Some a,
       Memory (<[a := Table (replicate (Z.to_nat HASHTABLE_NODE_COUNT) NULL)]> (tables m))
              (nodes m))
  end.

(** [hashtable_destroy]: a diagnostic for [NULL], then [free(ht)] in
    either case.  The chains are not walked. *)
Definition hashtable_destroy (ht : ptr) (m : memory) : outcome memory :=
  match ht with
  | None => Done m
  | Some a =>
      match tables m !! a with
      | Some _ => Done (Memory (delete a (tables m)) (nodes m))
      | None => Fault
      end
  end.

Section Main.

Variable char_signed : bool.

(** [hashtable_set(ht, key, value)] with [ht] a pointer into memory:
    the call runs on the table block and the nodes, and the table
    block holds what the call left.  When [malloc] returns [NULL] the
    function returns before it reads [ht]. *)
Definition hashtable_set_in (aux : ptr) (fuel : nat) (ht : ptr) (m : memory)
  (k : string) (v : Z) : outcome (Z * memory) :=
  match aux with
  | None => Done (-1, m)
  | Some _ =>
      match ht with
      | None => Fault
      | Some ta =>
          match tables m !! ta with
          | None => Fault
          | Some t =>
              '(r, t', h') ← hashtable_set char_signed aux fuel t (nodes m) k v;
              Done (r, Memory (<[ta := t']> (tables m)) h')
          end
      end
  end.

(** [hashtable_get(ht, key)] with [ht] a pointer into memory. *)
Definition hashtable_get_in (fuel : nat) (ht : ptr) (m : memory) (k : string)
  : outcome Z :=
  match ht with
  | None => Fault
  | Some ta =>
      match tables m !! ta with
      | None => Fault
      | Some t => hashtable_get char_signed fuel t (nodes m) k
      end
  end.

(** [main], built with [-DDEBUG] as the header of the source says, so
    that the three [hashtable_get] calls inside [debugf] are made.
    [t_aux], [n1], [n2], [n3] are what the four calls of [malloc]
    return.  The results of [hashtable_set] are dropped, as in the
    source; what [debugf] prints is not modelled. *)
Definition main (t_aux n1 n2 n3 : ptr) (fuel : nat) (m : memory)
  : outcome (Z * memory) :=
  let '(ht, m0) := hashtable_create_in t_aux m in
  match ht with
  | None => Done (-1, m0)
  | Some _ =>
      '(_, m1) ← hashtable_set_in n1 fuel ht m0 "eric" 111;
      '(_, m2) ← hashtable_set_in n2 fuel ht m1 "erhd" 222;
      '(_, m3) ← hashtable_set_in n3 fuel ht m2 "john" 333;
      _ ← hashtable_get_in fuel ht m3 "eric";
      _ ← hashtable_get_in fuel ht m3 "erhd";
      _ ← hashtable_get_in fuel ht m3 "john";
      m4 ← hashtable_destroy ht m3;
      Done (0, m4)
  end.

End Main.

(** ** Further notions *)

(** Every bucket is a chain whose stored keys hash to the bucket's
    index and are K bytes as [strncpy] writes them. *)
Definition key_wf (char_signed : bool) (i : nat) (s : string) : Prop :=
  calculate_hash char_signed s = Z.of_nat i /\
  strncpy s HASHTABLE_KEY_SIZE = s.

Definition bucket_wf (char_signed : bool) (h : heap) (i : nat) (p : ptr) : Prop :=
  exists l, chain h p l /\ Forall (key_wf char_signed i) (e_key <$> l).

Definition table_wf (char_signed : bool) (ht : hashtable_t) (h : heap) : Prop :=
  List.length (array ht) = Z.to_nat HASHTABLE_NODE_COUNT /\
  forall i p, array ht !! i = Some p -> bucket_wf char_signed h i p.

(** The addresses [malloc] handed out in a list of its results. *)
Definition allocated (auxs : list ptr) : list positive := omap id auxs.

Section Built.

Variable char_signed : bool.

(** The tables built from a fresh table over the node heap [h0] by
    calls of [hashtable_set], with the [malloc] results of the calls,
    latest first. *)
Inductive built (h0 : heap) : list ptr -> hashtable_t -> heap -> Prop :=
  | built_create ht :
      hashtable_create true = Some ht ->
      built h0 [] ht h0
  | built_set auxs ht h aux fuel k v r ht' h' :
      built h0 auxs ht h ->
      fresh_for aux h ->
      hashtable_set char_signed aux fuel ht h k v = Done (r, ht', h') ->
      built h0 (aux :: auxs) ht' h'.

End Built.

(** The K bytes [strncpy] makes of a key: what the table sees of it. *)
Abbreviation truncated k := (strncpy k HASHTABLE_KEY_SIZE) (only parsing).

(** * Properties *)

(** ** Characters and string functions *)

Section StringFacts.

Implicit Types (s k : string) (c : ascii) (n : nat).

Lemma uchar_inj c1 c2 : uchar c1 = uchar c2 -> c1 = c2.
Proof.
  unfold uchar. intros H. apply N2Z.inj in H.
  rewrite <- (ascii_N_embedding c1), <- (ascii_N_embedding c2). congruence.
Qed.

Lemma uchar_range c : 0 <= uchar c < 256.
Proof.
  unfold uchar. pose proof (N_ascii_bounded c). lia.
Qed.

Lemma char_to_int_range sg c : -128 <= char_to_int sg c < 256.
Proof.
  unfold char_to_int. pose proof (uchar_range c).
  destruct sg; simpl; [destruct (Z.leb_spec 128 (uchar c))|]; lia.
Qed.

Lemma char_to_int_unsigned c : char_to_int false c = uchar c.
Proof. reflexivity. Qed.

Lemma is_nul_true c : is_nul c = true <-> c = NUL.
Proof. unfold is_nul. apply Ascii.eqb_eq. Qed.

Lemma is_nul_false c : is_nul c = false <-> c <> NUL.
Proof. unfold is_nul. apply Ascii.eqb_neq. Qed.

Lemma strnlen_min s n : strnlen s n = Nat.min (strlen s) n.
Proof.
  revert s. induction n as [|n IH]; intros [|c s]; simpl; try lia.
  destruct (is_nul c); simpl; [lia|]. rewrite IH. lia.
Qed.

Lemma short_key_strnlen k :
  short_key k <-> (strnlen k HASHTABLE_KEY_SIZE < HASHTABLE_KEY_SIZE)%nat.
Proof. unfold short_key. rewrite strnlen_min. lia. Qed.

Lemma strncpy_length s n : String.length (strncpy s n) = n.
Proof.
  revert s. induction n as [|n IH]; intros s; simpl; [reflexivity|].
  now rewrite IH.
Qed.

Lemma strncpy_idem s n : strncpy (strncpy s n) n = strncpy s n.
Proof.
  revert s. induction n as [|n IH]; intros s; simpl; [reflexivity|].
  destruct (is_nul (head_char s)) eqn:E; [reflexivity|].
  now rewrite IH.
Qed.

Lemma strncpy_empty n : strncpy EmptyString n = string_of_list_ascii (replicate n NUL).
Proof.
  induction n as [|n IH]; simpl; [reflexivity|]. now rewrite IH.
Qed.

(** [strncmp] answers 0 exactly when [strncpy] would produce the same
    [n] bytes from both strings. *)
Lemma strncmp_zero_iff s1 s2 n :
  strncmp s1 s2 n = 0 <-> strncpy s1 n = strncpy s2 n.
Proof.
  revert s1 s2. induction n as [|n IH]; intros s1 s2; simpl; [tauto|].
  destruct (Ascii.eqb_spec (head_char s1) (head_char s2)) as [Heq|Hne]; simpl.
  - rewrite <- Heq. destruct (is_nul (head_char s1)); [tauto|].
    rewrite IH. split; [congruence|]. now inversion 1.
  - split.
    + intros H. exfalso. apply Hne, uchar_inj. lia.
    + inversion 1. contradiction.
Qed.

Lemma strncmp_strncpy_l s1 s2 n : strncmp (strncpy s1 n) s2 n = 0 <-> strncmp s1 s2 n = 0.
Proof. now rewrite !strncmp_zero_iff, strncpy_idem. Qed.

Lemma strncmp_strncpy_self s n : strncmp (strncpy s n) s n = 0.
Proof. now apply strncmp_strncpy_l, strncmp_zero_iff. Qed.

(** What [strncpy] writes, in terms of the bytes of the source: the
    bytes before its terminator, at most [n] of them, then NUL bytes. *)
Lemma strncpy_bytes s n :
  list_ascii_of_string (strncpy s n) =
  take (Nat.min (strlen s) n) (list_ascii_of_string s)
  ++ replicate (n - Nat.min (strlen s) n) NUL.
Proof.
  revert s. induction n as [|n IH]; intros s.
  - simpl. now rewrite Nat.min_0_r.
  - destruct s as [|c s]; simpl.
    + rewrite strncpy_empty, list_ascii_of_string_of_list_ascii. reflexivity.
    + destruct (is_nul c) eqn:E; simpl.
      * apply is_nul_true in E. subst c.
        rewrite strncpy_empty, list_ascii_of_string_of_list_ascii. reflexivity.
      * now rewrite IH.
Qed.

Lemma strncpy_nul_terminated s n :
  nul_terminated (strncpy s n) n = true <-> (strlen s < n)%nat.
Proof.
  unfold nul_terminated. rewrite Nat.ltb_lt, strnlen_min.
  revert s. induction n as [|n IH]; intros s; simpl; [lia|].
  destruct s as [|c s]; simpl; [lia|].
  destruct (is_nul c) eqn:E; simpl; [lia|].
  specialize (IH s). lia.
Qed.

End StringFacts.

(** ** The hash *)

Section HashFacts.

Variable sg : bool.

Implicit Types (s k : string) (c : ascii) (n : nat).

Lemma hash_loop_sum k n acc :
  hash_loop sg k n acc =
  acc + byte_sum sg (take (Nat.min (strlen k) n) (list_ascii_of_string k)).
Proof.
  revert k acc. induction n as [|n IH]; intros k acc.
  - rewrite Nat.min_0_r. simpl. destruct (is_nul (head_char k)); lia.
  - destruct k as [|c k]; simpl; [lia|].
    destruct (is_nul c) eqn:E; simpl; [lia|]. rewrite IH. lia.
Qed.

Lemma calculate_hash_sum k :
  calculate_hash sg k = Z.rem (byte_sum sg (key_prefix k)) HASHTABLE_NODE_COUNT.
Proof.
  unfold calculate_hash, key_prefix. now rewrite hash_loop_sum, Z.add_0_l.
Qed.

Lemma byte_sum_bounds (l : list ascii) :
  -128 * Z.of_nat (List.length l) <= byte_sum sg l <= 255 * Z.of_nat (List.length l).
Proof.
  induction l as [|c l IH]; simpl; [lia|].
  pose proof (char_to_int_range sg c). lia.
Qed.

(** The sum the loop builds fits an [int] with room to spare. *)
Lemma hash_loop_bounds k :
  -4096 <= hash_loop sg k HASHTABLE_KEY_SIZE 0 <= 8160.
Proof.
  rewrite hash_loop_sum.
  pose proof (byte_sum_bounds
    (take (Nat.min (strlen k) HASHTABLE_KEY_SIZE) (list_ascii_of_string k))) as H.
  rewrite length_take in H. unfold HASHTABLE_KEY_SIZE in *. lia.
Qed.

Lemma byte_sum_perm (l1 l2 : list ascii) :
  Permutation l1 l2 -> byte_sum sg l1 = byte_sum sg l2.
Proof.
  induction 1; simpl; lia.
Qed.

Lemma byte_sum_nonneg (l : list ascii) :
  Forall (fun c => 0 <= char_to_int sg c) l -> 0 <= byte_sum sg l.
Proof.
  induction 1; simpl; lia.
Qed.

(** For keys whose bytes are not negative as [char] (every key when
    [char] is unsigned, ASCII keys otherwise) the hash is an index. *)
Lemma calculate_hash_index k :
  Forall (fun c => 0 <= char_to_int sg c) (key_prefix k) ->
  0 <= calculate_hash sg k < HASHTABLE_NODE_COUNT.
Proof.
  intros H. rewrite calculate_hash_sum. apply byte_sum_nonneg in H.
  unfold HASHTABLE_NODE_COUNT. apply Z.rem_bound_pos; lia.
Qed.

Lemma calculate_hash_below k : calculate_hash sg k < HASHTABLE_NODE_COUNT.
Proof.
  unfold calculate_hash, HASHTABLE_NODE_COUNT.
  pose proof (Z.rem_bound_abs (hash_loop sg k HASHTABLE_KEY_SIZE 0) 100). lia.
Qed.

Lemma hash_loop_strncpy k n acc :
  hash_loop sg (strncpy k n) n acc = hash_loop sg k n acc.
Proof.
  revert k acc. induction n as [|n IH]; intros k acc; simpl.
  - now destruct (is_nul (head_char k)).
  - destruct (is_nul (head_char k)) eqn:E; [reflexivity|]. now rewrite IH.
Qed.

Lemma calculate_hash_strncpy k :
  calculate_hash sg (strncpy k HASHTABLE_KEY_SIZE) = calculate_hash sg k.
Proof. unfold calculate_hash. now rewrite hash_loop_strncpy. Qed.

End HashFacts.

Lemma calculate_hash_unsigned_index k :
  0 <= calculate_hash false k < HASHTABLE_NODE_COUNT.
Proof.
  apply calculate_hash_index, Forall_forall. intros c _.
  rewrite char_to_int_unsigned. apply uchar_range.
Qed.

(** From here on the string functions are used at
    [HASHTABLE_KEY_SIZE] only, through the lemmas above. *)
Arguments strncmp : simpl never.
Arguments strnlen : simpl never.
Arguments strncpy : simpl never.
Arguments hash_loop : simpl never.
Arguments calculate_hash : simpl never.

(** ** Chains in the heap *)

Section ChainFacts.

Implicit Types (h : heap) (p q : ptr) (l : list entry) (e : entry).

Lemma chain_nil h p : chain h p [] <-> p = NULL.
Proof. reflexivity. Qed.

Lemma chain_null h l : chain h NULL l -> l = [].
Proof. destruct l as [|e l]; [reflexivity|]. intros [? _]. discriminate. Qed.

Lemma chain_functional h l1 : forall p l2, chain h p l1 -> chain h p l2 -> l1 = l2.
Proof.
  induction l1 as [|e1 l1 IH]; intros p l2 H1 H2.
  - simpl in H1. subst p. symmetry. eapply chain_null, H2.
  - destruct H1 as (-> & nx & Hl & Hc).
    destruct l2 as [|e2 l2]; [discriminate H2|].
    destruct H2 as (Hp & nx2 & Hl2 & Hc2).
    injection Hp as Ha. rewrite <- Ha in Hl2. rewrite Hl in Hl2.
    injection Hl2 as -> Hk Hv.
    destruct e1 as [[a1 k1] v1], e2 as [[a2 k2] v2].
    unfold e_addr, e_key, e_value in *; simpl in *. subst.
    f_equal. eapply IH; eassumption.
Qed.

Lemma chain_lookup h l : forall p e, chain h p l -> e ∈ l ->
  exists nx, h !! e_addr e = Some (Node nx (e_key e) (e_value e)).
Proof.
  induction l as [|e0 l IH]; intros p e Hc He.
  - inversion He.
  - destruct Hc as (_ & nx & Hl & Hc).
    apply elem_of_cons in He as [->|He]; [eauto|]. eapply IH; eassumption.
Qed.

Lemma chain_suffix h l1 : forall p l2, chain h p (l1 ++ l2) -> exists q, chain h q l2.
Proof.
  induction l1 as [|e l1 IH]; intros p l2 Hc; [eauto|].
  destruct Hc as (_ & nx & _ & Hc). eapply IH, Hc.
Qed.

(** A heap that agrees with [h] on the nodes of a chain has the chain too. *)
Lemma chain_frame h h' l : forall p,
  (forall e, e ∈ l -> h' !! e_addr e = h !! e_addr e) ->
  chain h p l -> chain h' p l.
Proof.
  induction l as [|e l IH]; intros p Hag Hc; [exact Hc|].
  destruct Hc as (-> & nx & Hl & Hc). split; [reflexivity|].
  exists nx. split.
  - rewrite Hag; [exact Hl | apply elem_of_cons; auto].
  - apply IH; [|exact Hc]. intros e' He'. apply Hag, elem_of_cons. auto.
Qed.

(** A chain visits no node twice: it ends. *)
Lemma chain_NoDup h l : forall p, chain h p l -> NoDup (e_addr <$> l).
Proof.
  induction l as [|e l IH]; intros p Hc; [constructor|].
  destruct Hc as (-> & nx & Hl & Hc). simpl. apply NoDup_cons. split; [|eauto].
  intros Hin. apply list_elem_of_fmap in Hin as (e' & Ha & He').
  apply list_elem_of_split in He' as (l1 & l2 & ->).
  destruct (chain_suffix _ _ _ _ Hc) as (q & Hq & nx' & Hl' & Hc').
  rewrite <- Ha, Hl in Hl'. injection Hl' as <- _ _.
  pose proof (chain_functional _ _ _ _ Hc Hc') as Heq.
  apply (f_equal (@List.length entry)) in Heq.
  rewrite length_app in Heq. simpl in Heq. lia.
Qed.

Lemma chain_fresh h l p a : chain h p l -> h !! a = None -> a ∉ e_addr <$> l.
Proof.
  intros Hc Hf Hin. apply list_elem_of_fmap in Hin as (e & -> & He).
  destruct (chain_lookup _ _ _ _ Hc He) as (nx & Hl). congruence.
Qed.

Lemma chain_insert_fresh h l p a n :
  chain h p l -> h !! a = None -> chain (<[a := n]> h) p l.
Proof.
  intros Hc Hf. eapply chain_frame; [|exact Hc].
  intros e He. apply lookup_insert_ne. intros ->.
  eapply chain_fresh; [exact Hc | exact Hf |]. now apply list_elem_of_fmap_2.
Qed.

End ChainFacts.

(** ** The loops, run on a chain

    Each loop either gives the answer read off the chain, or is still
    running when the iterations allowed are fewer than the nodes. *)

Section LoopFacts.

Implicit Types (h : heap) (p q : ptr) (l : list entry) (e : entry) (k : string).

Lemma find_entries_long k l :
  (HASHTABLE_KEY_SIZE <= strnlen k HASHTABLE_KEY_SIZE)%nat -> find_entries k l = NULL.
Proof.
  intros Hlong. induction l as [|e l IH]; simpl; [reflexivity|].
  unfold find_matches. destruct (Nat.leb_spec HASHTABLE_KEY_SIZE (strnlen k HASHTABLE_KEY_SIZE)); [|lia].
  simpl. exact IH.
Qed.

Lemma find_matches_short k stored :
  (strnlen k HASHTABLE_KEY_SIZE < HASHTABLE_KEY_SIZE)%nat ->
  find_matches k stored = get_matches k stored.
Proof.
  intros Hs. unfold find_matches, get_matches.
  destruct (Nat.leb_spec HASHTABLE_KEY_SIZE (strnlen k HASHTABLE_KEY_SIZE)); [lia|reflexivity].
Qed.

Lemma find_loop_chain h k l : forall fuel p,
  (strnlen k HASHTABLE_KEY_SIZE < HASHTABLE_KEY_SIZE)%nat ->
  chain h p l ->
  find_loop fuel h p k = Done (find_entries k l) \/
  (find_loop fuel h p k = Timeout /\ (fuel < List.length l)%nat).
Proof.
  induction l as [|e l IH]; intros fuel p Hs Hc.
  - simpl in Hc. subst p. left. now destruct fuel.
  - destruct Hc as (-> & nx & Hl & Hc). simpl find_entries.
    rewrite find_matches_short by exact Hs. unfold get_matches.
    destruct fuel as [|fuel]; [right; simpl; split; [reflexivity|lia]|].
    simpl. rewrite Hl. simpl.
    destruct (strncmp (e_key e) k HASHTABLE_KEY_SIZE =? 0); [now left|].
    destruct (IH fuel nx Hs Hc) as [H|[H Hlt]]; [now left|right].
    split; [exact H|lia].
Qed.

Lemma hashtable_node_find_by_key_chain h k l fuel p :
  chain h p l ->
  hashtable_node_find_by_key fuel h p k = Done (find_entries k l) \/
  (hashtable_node_find_by_key fuel h p k = Timeout /\ (fuel < List.length l)%nat).
Proof.
  intros Hc. unfold hashtable_node_find_by_key.
  destruct (Nat.leb_spec HASHTABLE_KEY_SIZE (strnlen k HASHTABLE_KEY_SIZE)) as [Hlong|Hs].
  - left. now rewrite find_entries_long.
  - now apply find_loop_chain.
Qed.

Lemma get_loop_chain h k l : forall fuel p,
  chain h p l ->
  get_loop fuel h p k = Done (get_entries k l) \/
  (get_loop fuel h p k = Timeout /\ (fuel < List.length l)%nat).
Proof.
  induction l as [|e l IH]; intros fuel p Hc.
  - simpl in Hc. subst p. left. now destruct fuel.
  - destruct Hc as (-> & nx & Hl & Hc). simpl get_entries. unfold get_matches.
    destruct fuel as [|fuel]; [right; simpl; split; [reflexivity|lia]|].
    simpl. rewrite Hl. simpl.
    destruct (strncmp (e_key e) k HASHTABLE_KEY_SIZE =? 0); [now left|].
    destruct (IH fuel nx Hc) as [H|[H Hlt]]; [now left|right].
    split; [exact H|lia].
Qed.

Lemma insert_walk_chain h l : forall fuel p z,
  chain h p l -> last l = Some z ->
  insert_walk fuel h p = Done (Some (e_addr z)) \/
  (insert_walk fuel h p = Timeout /\ (fuel < List.length l)%nat).
Proof.
  induction l as [|e l IH]; intros fuel p z Hc Hz; [discriminate|].
  destruct Hc as (-> & nx & Hl & Hc).
  destruct fuel as [|fuel]; [right; simpl; split; [reflexivity|lia]|].
  simpl. rewrite Hl. simpl.
  destruct l as [|e' l].
  - simpl in Hc. subst nx. injection Hz as <-. now left.
  - destruct Hc as (-> & Hc). rewrite last_cons_cons in Hz.
    destruct (IH fuel (Some (e_addr e')) z) as [H|[H Hlt]]; [split; auto|exact Hz|now left|].
    right. split; [exact H|simpl in *; lia].
Qed.

End LoopFacts.

(** ** Appending and overwriting *)

Section UpdateFacts.

Implicit Types (h : heap) (p q : ptr) (l : list entry) (e z : entry) (k : string).

Lemma link_last_chain h l : forall p z a ka va,
  chain h p l -> last l = Some z -> a ∉ e_addr <$> l ->
  chain (link_last h z a ka va) p (l ++ [(a, ka, va)]).
Proof.
  unfold link_last.
  induction l as [|e l IH]; intros p z a ka va Hc Hz Ha; [discriminate|].
  pose proof (chain_NoDup _ _ _ Hc) as Hnd.
  destruct Hc as (-> & nx & Hl & Hc).
  rewrite fmap_cons in Ha. apply not_elem_of_cons in Ha as [Hae Hal].
  destruct l as [|e' l].
  - simpl in Hc. subst nx. injection Hz as <-.
    split; [reflexivity|]. exists (Some a). split.
    + rewrite lookup_insert_ne by congruence. now rewrite lookup_insert_eq.
    + split; [reflexivity|]. exists NULL. split; [|reflexivity].
      unfold e_addr, e_key, e_value; simpl. now rewrite lookup_insert_eq.
  - rewrite last_cons_cons in Hz.
    split; [reflexivity|]. exists nx. split.
    + rewrite lookup_insert_ne by congruence.
      rewrite lookup_insert_ne; [exact Hl|].
      intros Heq. rewrite fmap_cons in Hnd. apply NoDup_cons in Hnd as [Hnin _].
      apply Hnin. rewrite <- Heq. apply list_elem_of_fmap_2.
      apply last_Some_elem_of. exact Hz.
    + apply IH; assumption.
Qed.

Lemma link_last_frame h z a ka va l x :
  h !! a = Some (Node NULL ka va) -> z ∈ l -> x ∉ e_addr <$> l ->
  link_last h z a ka va !! x = h !! x.
Proof.
  intros Ha Hz Hx. unfold link_last.
  destruct (decide (x = a)) as [->|Hne].
  - now rewrite lookup_insert_eq.
  - rewrite lookup_insert_ne by congruence.
    rewrite lookup_insert_ne; [reflexivity|].
    intros <-. apply Hx. now apply list_elem_of_fmap_2.
Qed.

Lemma link_last_dom h z a ka va nz na :
  h !! e_addr z = Some nz -> h !! a = Some na ->
  dom (link_last h z a ka va) = dom h.
Proof.
  intros Hz Ha. unfold link_last.
  rewrite dom_insert_lookup_L.
  - rewrite dom_insert_lookup_L; eauto.
  - destruct (decide (e_addr z = a)) as [->|Hne].
    + rewrite lookup_insert_eq. eauto.
    + rewrite lookup_insert_ne by exact Hne. eauto.
Qed.

(** [hashtable_node_insert] on a chain and a node that ends in [NULL]. *)
Lemma hashtable_node_insert_chain h l fuel b a ka va :
  chain h (Some b) l ->
  h !! a = Some (Node NULL ka va) ->
  a ∉ e_addr <$> l ->
  (exists z, last l = Some z /\
     hashtable_node_insert fuel h (Some b) (Some a) = Done (link_last h z a ka va)) \/
  (hashtable_node_insert fuel h (Some b) (Some a) = Timeout /\ (fuel < List.length l)%nat).
Proof.
  intros Hc Ha Hnin.
  destruct l as [|e l]; [discriminate|].
  pose proof (chain_NoDup _ _ _ Hc) as Hnd.
  destruct Hc as (Hb & nx & Hl & Hc). injection Hb as ->.
  rewrite fmap_cons in Hnin. apply not_elem_of_cons in Hnin as [Hae Hal].
  unfold hashtable_node_insert. simpl. rewrite Hl. simpl.
  destruct nx as [c|].
  - destruct l as [|e' l]; [discriminate Hc|].
    destruct (last (e' :: l)) as [z|] eqn:Hz; [|apply last_None in Hz; discriminate].
    destruct (insert_walk_chain h (e' :: l) fuel (Some c) z Hc Hz) as [Hw|[Hw Hlt]].
    + left. exists z. split; [now rewrite last_cons_cons|].
      rewrite Hw. simpl.
      assert (Hzin : z ∈ e' :: l) by (apply last_Some_elem_of; exact Hz).
      destruct (chain_lookup _ _ _ _ Hc Hzin) as (nz & Hlz). rewrite Hlz. simpl.
      assert (Hza : a <> e_addr z).
      { intros ->. apply Hal. now apply list_elem_of_fmap_2. }
      rewrite lookup_insert_ne by congruence. rewrite Ha. reflexivity.
    + right. rewrite Hw. simpl. split; [reflexivity|simpl in *; lia].
  - apply chain_null in Hc. subst l. left. exists e. split; [reflexivity|].
    unfold link_last. f_equal. symmetry. apply insert_id.
    now rewrite lookup_insert_ne by congruence.
Qed.

Lemma set_entries_no_match a k v l :
  find_entries k l = NULL -> set_entries a k v l = l ++ [(a, strncpy k HASHTABLE_KEY_SIZE, v)].
Proof.
  induction l as [|e l IH]; simpl; [reflexivity|].
  destruct (find_matches k (e_key e)); [discriminate|].
  intros H. now rewrite IH.
Qed.

Lemma find_entries_elem k l f :
  find_entries k l = Some f -> f ∈ e_addr <$> l.
Proof.
  induction l as [|e l IH]; simpl; [discriminate|].
  destruct (find_matches k (e_key e)).
  - intros [= <-]. apply elem_of_cons. now left.
  - intros H. apply elem_of_cons. right. auto.
Qed.

(** Storing the value into the node [find] returned. *)
Lemma overwrite_chain h a k v l : forall p f,
  chain h p l -> find_entries k l = Some f ->
  exists n, h !! f = Some n /\
    chain (<[f := Node (next n) (key n) v]> h) p (set_entries a k v l).
Proof.
  induction l as [|e l IH]; intros p f Hc Hf; [discriminate|].
  pose proof (chain_NoDup _ _ _ Hc) as Hnd.
  rewrite fmap_cons in Hnd. apply NoDup_cons in Hnd as [Hnin Hnd].
  destruct Hc as (-> & nx & Hl & Hc). simpl in Hf |- *.
  destruct (find_matches k (e_key e)).
  - injection Hf as <-. eexists. split; [exact Hl|]. simpl.
    split; [reflexivity|]. exists nx. split.
    + exact (lookup_insert_eq h (e_addr e) _).
    + eapply chain_frame; [|exact Hc]. intros e' He'.
      apply lookup_insert_ne. intros Heq. apply Hnin. rewrite Heq.
      now apply list_elem_of_fmap_2.
  - destruct (IH nx f Hc Hf) as (n & Hn & Hc').
    exists n. split; [exact Hn|].
    split; [reflexivity|]. exists nx. split; [|exact Hc'].
    rewrite lookup_insert_ne; [exact Hl|].
    intros Heq. apply Hnin. rewrite <- Heq. eapply find_entries_elem, Hf.
Qed.

End UpdateFacts.

(** ** [hashtable_set] and [hashtable_get] on a bucket's chain *)

Section TableFacts.

Variable sg : bool.

Implicit Types (h : heap) (p q : ptr) (l : list entry) (e z : entry) (k : string)
  (ht : hashtable_t).

Lemma array_at_index ht j p k :
  array ht !! j = Some p -> calculate_hash sg k = Z.of_nat j ->
  array_at ht (calculate_hash sg k) = Done p.
Proof.
  intros Hj Hk. unfold array_at. pose proof (calculate_hash_below sg k) as Hlt.
  rewrite Hk in *. rewrite Nat2Z.id, Hj.
  destruct (Z.leb_spec 0 (Z.of_nat j)); [|lia].
  destruct (Z.ltb_spec (Z.of_nat j) HASHTABLE_NODE_COUNT); [reflexivity|lia].
Qed.

Lemma array_put_index ht j p q k :
  array ht !! j = Some p -> calculate_hash sg k = Z.of_nat j ->
  array_put ht (calculate_hash sg k) q = Done (Table (<[j := q]> (array ht))).
Proof.
  intros Hj Hk. unfold array_put. pose proof (calculate_hash_below sg k) as Hlt.
  rewrite Hk in *. rewrite Nat2Z.id, Hj.
  destruct (Z.leb_spec 0 (Z.of_nat j)); [|lia].
  destruct (Z.ltb_spec (Z.of_nat j) HASHTABLE_NODE_COUNT); [reflexivity|lia].
Qed.

(** When [array_at] answers, the hash is an index of the array. *)
Lemma array_at_Done ht i p :
  array_at ht i = Done p ->
  exists j, i = Z.of_nat j /\ array ht !! j = Some p.
Proof.
  unfold array_at. destruct (Z.leb_spec 0 i); simpl; [|discriminate].
  destruct (i <? HASHTABLE_NODE_COUNT); [|discriminate].
  destruct (array ht !! Z.to_nat i) eqn:E; [|discriminate].
  intros [= ->]. exists (Z.to_nat i). split; [lia|exact E].
Qed.

(** The refinement: a call of [hashtable_set] whose allocation
    succeeded turns the chain [l] of the key's bucket into
    [set_entries a k v l], touches no node outside that chain but the
    new one, and leaves the new node in the heap in every case. *)
Lemma hashtable_set_chain a fuel ht h k v j p l :
  array ht !! j = Some p ->
  calculate_hash sg k = Z.of_nat j ->
  chain h p l ->
  h !! a = None ->
  (exists ht' h' p',
     hashtable_set sg (Some a) fuel ht h k v = Done (0, ht', h') /\
     array ht' = <[j := p']> (array ht) /\
     chain h' p' (set_entries a k v l) /\
     (forall x, x <> a -> x ∉ e_addr <$> l -> h' !! x = h !! x) /\
     dom h' = {[a]} ∪ dom h) \/
  (hashtable_set sg (Some a) fuel ht h k v = Timeout /\ (fuel < List.length l)%nat).
Proof.
  intros Hj Hk Hc Hfresh.
  unfold hashtable_set, hashtable_node_create.
  rewrite (array_at_index ht j p k Hj Hk). simpl.
  set (h1 := <[a := Node NULL (strncpy k HASHTABLE_KEY_SIZE) v]> h).
  assert (Hc1 : chain h1 p l) by (apply chain_insert_fresh; assumption).
  assert (Ha1 : h1 !! a = Some (Node NULL (strncpy k HASHTABLE_KEY_SIZE) v))
    by apply lookup_insert_eq.
  destruct l as [|e l'].
  - simpl in Hc. subst p. left.
    rewrite (array_put_index ht j NULL (Some a) k Hj Hk). simpl.
    exists (Table (<[j := Some a]> (array ht))), h1, (Some a).
    split; [reflexivity|]. split; [reflexivity|]. split.
    + split; [reflexivity|]. exists NULL. split; [exact Ha1|reflexivity].
    + split.
      * intros x Hx _. apply lookup_insert_ne. congruence.
      * apply dom_insert_L.
  - remember (e :: l') as l eqn:El.
    assert (Hp : exists b, p = Some b).
    { subst l. destruct Hc as [-> _]. eauto. }
    destruct Hp as [b ->].
    destruct (hashtable_node_find_by_key_chain h1 k l fuel (Some b) Hc1)
      as [Hfind|[Hfind Hlt]]; rewrite Hfind; simpl; [|right; auto].
    destruct (find_entries k l) as [f|] eqn:Ef.
    + left. destruct (overwrite_chain h1 a k v l (Some b) f Hc1 Ef) as (n & Hn & Hc2).
      unfold store_value. rewrite Hn. simpl.
      exists ht, (<[f := Node (next n) (key n) v]> h1), (Some b).
      split; [reflexivity|]. split; [symmetry; now apply list_insert_id|].
      split; [exact Hc2|]. split.
      * intros x Hxa Hxl. rewrite lookup_insert_ne.
        -- apply lookup_insert_ne. congruence.
        -- intros <-. apply Hxl. eapply find_entries_elem, Ef.
      * rewrite dom_insert_lookup_L by eauto. apply dom_insert_L.
    + assert (Hnin : a ∉ e_addr <$> l) by exact (chain_fresh h l (Some b) a Hc Hfresh).
      destruct (hashtable_node_insert_chain h1 l fuel b a _ v Hc1 Ha1 Hnin)
        as [(z & Hz & Hins)|[Hins Hlt]]; rewrite Hins; simpl; [left|right; auto].
      assert (Hzin : z ∈ l) by (apply last_Some_elem_of; exact Hz).
      destruct (chain_lookup _ _ _ _ Hc1 Hzin) as (nz & Hlz).
      exists ht, (link_last h1 z a (strncpy k HASHTABLE_KEY_SIZE) v), (Some b).
      split; [reflexivity|]. split; [symmetry; now apply list_insert_id|].
      split; [rewrite set_entries_no_match by exact Ef; now apply link_last_chain|].
      split.
      * intros x Hxa Hxl. rewrite (link_last_frame h1 z a _ v l x Ha1 Hzin Hxl).
        apply lookup_insert_ne. congruence.
      * rewrite (link_last_dom h1 z a _ v _ _ Hlz Ha1). apply dom_insert_L.
Qed.

End TableFacts.

(** ** The chain a bucket becomes, as a list *)

Section EntriesFacts.

Implicit Types (l : list entry) (e : entry) (k : string).

Lemma get_matches_strncpy k : get_matches k (strncpy k HASHTABLE_KEY_SIZE) = true.
Proof. unfold get_matches. now rewrite strncmp_strncpy_self. Qed.

Lemma get_set_entries a k v l :
  (strnlen k HASHTABLE_KEY_SIZE < HASHTABLE_KEY_SIZE)%nat ->
  get_entries k (set_entries a k v l) = v.
Proof.
  intros Hs. induction l as [|e l IH]; simpl.
  - now rewrite get_matches_strncpy.
  - rewrite find_matches_short by exact Hs.
    destruct e as [[ea ek] ev]. unfold e_key, e_addr, e_value in *. simpl in *.
    destruct (get_matches k ek) eqn:E; simpl; unfold e_key, e_value; simpl;
      now rewrite E.
Qed.

Lemma set_entries_found a k v l f :
  find_entries k l = Some f ->
  e_addr <$> set_entries a k v l = e_addr <$> l /\
  e_key <$> set_entries a k v l = e_key <$> l.
Proof.
  induction l as [|e l IH]; simpl; [discriminate|].
  destruct (find_matches k (e_key e)); [intros _; now split|].
  intros Hf. destruct (IH Hf) as [Ha Hk]. rewrite !fmap_cons, Ha, Hk. now split.
Qed.

Lemma find_set_entries a k v l :
  (strnlen k HASHTABLE_KEY_SIZE < HASHTABLE_KEY_SIZE)%nat ->
  exists f, find_entries k (set_entries a k v l) = Some f.
Proof.
  intros Hs. induction l as [|e l IH]; simpl.
  - rewrite find_matches_short by exact Hs. rewrite get_matches_strncpy. eauto.
  - destruct e as [[ea ek] ev]. unfold e_key, e_addr, e_value in *. simpl in *.
    destruct (find_matches k ek) eqn:E; simpl; unfold e_key; simpl;
      rewrite E; eauto.
Qed.

(** Setting the same accepted key again keeps the nodes of the chain. *)
Lemma set_set_entries_length a1 a2 k v1 v2 l :
  (strnlen k HASHTABLE_KEY_SIZE < HASHTABLE_KEY_SIZE)%nat ->
  List.length (set_entries a2 k v2 (set_entries a1 k v1 l)) =
  List.length (set_entries a1 k v1 l).
Proof.
  intros Hs. destruct (find_set_entries a1 k v1 l Hs) as [f Hf].
  destruct (set_entries_found a2 k v2 _ f Hf) as [Ha _].
  apply (f_equal (@List.length positive)) in Ha. now rewrite !length_fmap in Ha.
Qed.

Lemma find_entries_none k l e :
  find_entries k l = NULL -> e ∈ l -> find_matches k (e_key e) = false.
Proof.
  induction l as [|e0 l IH]; simpl; [inversion 2|].
  destruct (find_matches k (e_key e0)) eqn:E; [discriminate|].
  intros Hf He. apply elem_of_cons in He as [->|He]; auto.
Qed.

(** The stored keys after a call with an accepted key: unchanged, or
    one more key that was not there. *)
Lemma set_entries_keys a k v l :
  (strnlen k HASHTABLE_KEY_SIZE < HASHTABLE_KEY_SIZE)%nat ->
  e_key <$> set_entries a k v l = e_key <$> l \/
  (e_key <$> set_entries a k v l = (e_key <$> l) ++ [strncpy k HASHTABLE_KEY_SIZE] /\
   strncpy k HASHTABLE_KEY_SIZE ∉ e_key <$> l).
Proof.
  intros Hs. destruct (find_entries k l) as [f|] eqn:Ef.
  - left. eapply set_entries_found, Ef.
  - right. rewrite set_entries_no_match by exact Ef. rewrite fmap_app. split; [reflexivity|].
    intros Hin. apply list_elem_of_fmap in Hin as (e & Hk & He).
    pose proof (find_entries_none k l e Ef He) as Hm.
    rewrite find_matches_short in Hm by exact Hs.
    rewrite <- Hk, get_matches_strncpy in Hm. discriminate.
Qed.

Lemma set_entries_NoDup a k v l :
  (strnlen k HASHTABLE_KEY_SIZE < HASHTABLE_KEY_SIZE)%nat ->
  NoDup (e_key <$> l) -> NoDup (e_key <$> set_entries a k v l).
Proof.
  intros Hs Hnd. destruct (set_entries_keys a k v l Hs) as [->|[-> Hnin]]; [exact Hnd|].
  apply NoDup_app. split; [exact Hnd|]. split.
  - intros x Hx Hx'. apply list_elem_of_singleton in Hx'. now subst x.
  - apply NoDup_singleton.
Qed.

Lemma set_entries_hash sg a k v l j :
  (strnlen k HASHTABLE_KEY_SIZE < HASHTABLE_KEY_SIZE)%nat ->
  calculate_hash sg k = Z.of_nat j ->
  Forall (fun s => calculate_hash sg s = Z.of_nat j) (e_key <$> l) ->
  Forall (fun s => calculate_hash sg s = Z.of_nat j) (e_key <$> set_entries a k v l).
Proof.
  intros Hs Hk Hall. destruct (set_entries_keys a k v l Hs) as [->|[-> _]]; [exact Hall|].
  apply Forall_app. split; [exact Hall|].
  apply Forall_singleton. now rewrite calculate_hash_strncpy.
Qed.

End EntriesFacts.

Section GetFacts.

Variable sg : bool.

Lemma bind_Done {A B : Type} (m : outcome A) (f : A -> outcome B) (x : B) :
  m ≫= f = Done x -> exists a, m = Done a /\ f a = Done x.
Proof. destruct m; simpl; [eauto|discriminate|discriminate]. Qed.

Lemma hashtable_get_chain fuel ht h k j p l :
  array ht !! j = Some p ->
  calculate_hash sg k = Z.of_nat j ->
  chain h p l ->
  hashtable_get sg fuel ht h k = Done (get_entries k l) \/
  (hashtable_get sg fuel ht h k = Timeout /\ (fuel < List.length l)%nat).
Proof.
  intros Hj Hk Hc. unfold hashtable_get.
  rewrite (array_at_index sg ht j p k Hj Hk). simpl.
  now apply get_loop_chain.
Qed.

(** How a call of [hashtable_set] can return: with -1 and nothing
    changed when the allocation failed, with 0 otherwise, and then the
    hash was an index of the array. *)
Lemma hashtable_set_Done aux fuel ht h k v r ht' h' :
  hashtable_set sg aux fuel ht h k v = Done (r, ht', h') ->
  (aux = NULL /\ r = -1 /\ ht' = ht /\ h' = h) \/
  (exists a j p, aux = Some a /\ r = 0 /\
                 calculate_hash sg k = Z.of_nat j /\ array ht !! j = Some p).
Proof.
  unfold hashtable_set, hashtable_node_create.
  destruct aux as [a|]; [|intros [= <- <- <-]; left; auto].
  intros H. right.
  apply bind_Done in H as (p & Eat & H).
  apply array_at_Done in Eat as (j & Hj & Hp).
  exists a, j, p. split; [reflexivity|]. split; [|auto].
  destruct p as [b|].
  - apply bind_Done in H as (found & _ & H).
    destruct found; apply bind_Done in H as (h2 & _ & H); now injection H.
  - apply bind_Done in H as (ht1 & _ & H). now injection H.
Qed.

End GetFacts.

(** * The claims *)

(** ** The hash (C2, C8) *)

(** C2.  The claim: for every key, [calculate_hash] returns a bucket
    index in the range 0 <= index < N.  The code, where [char] is
    signed, returns -1 for the key whose only byte is 0xFF: the byte is
    added as -1, and C's [%] keeps the sign of the dividend.  The result
    is no index of the array.  Any key with bytes above 0x7F can do the
    same, such as a non-ASCII key in UTF-8. *)
Theorem calculate_hash_negative :
  calculate_hash true key_ff = -1 /\
  ~ (0 <= calculate_hash true key_ff < HASHTABLE_NODE_COUNT) /\
  calculate_hash true key_utf8 = -48.
Proof.
  assert (H : calculate_hash true key_ff = -1) by reflexivity.
  split; [exact H|]. split; [rewrite H; lia|reflexivity].
Qed.

(** C8.  The hash is the remainder of the sum of the first
    min(length, K) bytes of the key, so it depends on those bytes only;
    two keys whose first min(length, K) bytes have the same sum get the
    same bucket, and so do two keys whose first bytes are permutations
    of each other. *)
Theorem calculate_hash_prefix_sum (sg : bool) (k1 k2 : string) :
  calculate_hash sg k1 = Z.rem (byte_sum sg (key_prefix k1)) HASHTABLE_NODE_COUNT /\
  (key_prefix k1 = key_prefix k2 -> calculate_hash sg k1 = calculate_hash sg k2) /\
  (byte_sum sg (key_prefix k1) = byte_sum sg (key_prefix k2) ->
   calculate_hash sg k1 = calculate_hash sg k2) /\
  (Permutation (key_prefix k1) (key_prefix k2) ->
   calculate_hash sg k1 = calculate_hash sg k2).
Proof.
  split; [apply calculate_hash_sum|].
  assert (Hsum : byte_sum sg (key_prefix k1) = byte_sum sg (key_prefix k2) ->
                 calculate_hash sg k1 = calculate_hash sg k2).
  { intros H. now rewrite !calculate_hash_sum, H. }
  split; [|split].
  - intros H. apply Hsum. now rewrite H.
  - exact Hsum.
  - intros H. apply Hsum, byte_sum_perm, H.
Qed.

Lemma calculate_hash_prefix_sum_witness :
  calculate_hash true "eric" = calculate_hash true "rice" /\
  calculate_hash true "eric" = calculate_hash true "dsic" /\
  calculate_hash true long_key = calculate_hash true longer_key.
Proof.
  split; [|split].
  - apply (proj2 (proj2 (proj2 (calculate_hash_prefix_sum true "eric" "rice")))).
    apply (Permutation_cons_append ["r"; "i"; "c"]%char "e"%char).
  - apply (proj1 (proj2 (proj2 (calculate_hash_prefix_sum true "eric" "dsic")))).
    reflexivity.
  - apply (proj1 (proj2 (calculate_hash_prefix_sum true long_key longer_key))).
    reflexivity.
Defined.

(** ** Nodes (C6, C9, C10) *)

(** C6, the claim as stated fails: for a key of [HASHTABLE_KEY_SIZE]
    bytes, [hashtable_node_create] stores all 32 bytes of the key, more
    than K-1, and the buffer holds no terminator. *)
Lemma hashtable_node_create_unterminated :
  exists n,
    (hashtable_node_create (Some 1%positive) long_key 7 ∅).2 !! 1%positive = Some n /\
    strnlen (key n) HASHTABLE_KEY_SIZE = HASHTABLE_KEY_SIZE /\
    nul_terminated (key n) HASHTABLE_KEY_SIZE = false.
Proof.
  eexists. split; [vm_compute; reflexivity|]. split; reflexivity.
Qed.

(** C6, amended.  A successful [hashtable_node_create] is given the
    block at [a] and leaves a node there that stores the first
    min(length, K) bytes of the key followed by NUL bytes up to K bytes
    (so the stored key has a terminator inside the buffer exactly when
    the key is shorter than K), with the given value and no successor;
    the rest of the heap is as before. *)
Theorem hashtable_node_create_stores (a : positive) (k : string) (v : Z) (h : heap) :
  exists h' n,
    hashtable_node_create (Some a) k v h = (Some a, h') /\
    h' !! a = Some n /\
    list_ascii_of_string (key n) =
      key_prefix k ++ replicate (HASHTABLE_KEY_SIZE - List.length (key_prefix k)) NUL /\
    String.length (key n) = HASHTABLE_KEY_SIZE /\
    (nul_terminated (key n) HASHTABLE_KEY_SIZE = true <->
     (strlen k < HASHTABLE_KEY_SIZE)%nat) /\
    value n = v /\
    next n = NULL /\
    (forall x, x <> a -> h' !! x = h !! x).
Proof.
  eexists _, _. split; [reflexivity|]. split; [apply lookup_insert_eq|].
  cbn [key value next]. split; [|split; [|split; [|split; [|split]]]].
  - rewrite strncpy_bytes. unfold key_prefix. f_equal. f_equal. f_equal.
    rewrite length_take. symmetry. apply Nat.min_l.
    etransitivity; [apply Nat.le_min_l|].
    clear. induction k as [|c k IH]; simpl; [lia|].
    destruct (is_nul c); simpl; lia.
  - apply strncpy_length.
  - apply strncpy_nul_terminated.
  - reflexivity.
  - reflexivity.
  - intros x Hx. apply lookup_insert_ne. congruence.
Qed.

(** C9.  The claim: after [hashtable_node_insert] the new node's
    successor link is none, whatever it was before.  The code returns
    early when the parent has no successor, before the statement that
    clears the link: the child at address 2 still points to the node at
    address 3 after the call. *)
Theorem hashtable_node_insert_keeps_child_link (fuel : nat) :
  exists h' n,
    hashtable_node_insert fuel linked_child_heap (Some 1%positive) (Some 2%positive)
      = Done h' /\
    h' !! 2%positive = Some n /\
    next n = Some 3%positive.
Proof.
  eexists _, _. split; [reflexivity|]. split; [vm_compute; reflexivity|reflexivity].
Qed.

(** The other branch of [hashtable_node_insert], where the parent has
    a successor, does clear the child's link. *)
Lemma hashtable_node_insert_walk_clears fuel h parent child p h' :
  load h parent = Done p -> next p <> NULL ->
  hashtable_node_insert fuel h parent child = Done h' ->
  exists n, load h' child = Done n /\ next n = NULL.
Proof.
  intros Hp Hnx. unfold hashtable_node_insert. rewrite Hp. simpl.
  destruct (next p) as [c|]; [|contradiction]. intros H.
  apply bind_Done in H as (current & _ & H).
  apply bind_Done in H as (h1 & _ & H).
  unfold store_next in H. destruct child as [c'|]; [|discriminate].
  destruct (h1 !! c') as [n|]; [|discriminate]. injection H as <-.
  eexists. simpl. rewrite lookup_insert_eq. split; reflexivity.
Qed.

(** C10.  [hashtable_get] checks no key length: after a [set] of the
    40-byte key [longer_key] on a fresh table, the node stores the first
    K bytes of the key and [get] of that key returns the stored value;
    [hashtable_node_find_by_key] answers not-found for every key of K
    bytes or more, on every chain. *)
Theorem hashtable_get_long_key (sg : bool) :
  (exists ht h a n,
     reachable sg (fun _ => True) ht h /\
     h !! a = Some n /\
     (HASHTABLE_KEY_SIZE <= strlen longer_key)%nat /\
     list_ascii_of_string (key n) =
       take HASHTABLE_KEY_SIZE (list_ascii_of_string longer_key) /\
     value n <> 0 /\
     forall fuel, (1 <= fuel)%nat ->
       hashtable_get sg fuel ht h longer_key = Done (value n)) /\
  (forall fuel h node k,
     (HASHTABLE_KEY_SIZE <= strlen k)%nat ->
     hashtable_node_find_by_key fuel h node k = Done NULL).
Proof.
  split.
  - destruct (hashtable_set sg (Some 1%positive) 0 fresh_table ∅ longer_key 7)
      as [[[r ht] h]| |] eqn:Hset; [|destruct sg; vm_compute in Hset; discriminate..].
    exists ht, h, 1%positive, (Node NULL (strncpy longer_key HASHTABLE_KEY_SIZE) 7).
    split; [|split; [|split; [|split; [|split]]]].
    + eapply (reach_set sg _ fresh_table ∅ (Some 1%positive) 0 longer_key 7 r ht h);
        [apply reach_create; reflexivity|exact I|reflexivity|exact Hset].
    + destruct sg; vm_compute in Hset; injection Hset as <- <- <-; reflexivity.
    + vm_compute. lia.
    + reflexivity.
    + discriminate.
    + intros [|fuel] Hfuel; [lia|].
      destruct sg; vm_compute in Hset; injection Hset as <- <- <-; reflexivity.
  - intros fuel h node k Hlong. unfold hashtable_node_find_by_key.
    rewrite strnlen_min, Nat.min_r by exact Hlong.
    now rewrite Nat.leb_refl.
Qed.

Lemma hashtable_get_long_key_witness :
  hashtable_node_find_by_key 0 ∅ NULL long_key = Done NULL.
Proof.
  apply (proj2 (hashtable_get_long_key true) 0%nat ∅ NULL long_key).
  vm_compute. lia.
Defined.

(** ** The table (C7, C5) *)

Lemma fresh_table_lookup i p : array fresh_table !! i = Some p -> p = NULL.
Proof.
  unfold fresh_table. cbn [array]. intros H. apply lookup_replicate in H. tauto.
Qed.

Lemma table_ok_fresh h : table_ok fresh_table h.
Proof.
  split; [unfold fresh_table; cbn [array]; apply length_replicate|].
  intros i p H. apply fresh_table_lookup in H. subst p. now exists [].
Qed.

Lemma table_inv_fresh sg h : table_inv sg fresh_table h.
Proof.
  split; [unfold fresh_table; cbn [array]; apply length_replicate|].
  intros i p H. apply fresh_table_lookup in H. subst p.
  exists []. split; [reflexivity|]. split; constructor.
Qed.

Lemma table_ok_bucket sg ht h k :
  table_ok ht h -> 0 <= calculate_hash sg k ->
  exists j p l, calculate_hash sg k = Z.of_nat j /\ array ht !! j = Some p /\ chain h p l.
Proof.
  intros [Hlen Hch] Hk. pose proof (calculate_hash_below sg k) as Hlt.
  destruct (lookup_lt_is_Some_2 (array ht) (Z.to_nat (calculate_hash sg k))) as [p Hp].
  { rewrite Hlen. lia. }
  destruct (Hch _ _ Hp) as [l Hl].
  exists (Z.to_nat (calculate_hash sg k)), p, l. split; [lia|auto].
Qed.

(** On a fresh table, [hashtable_get] returns 0 for every key whose
    hash is an index. *)
Lemma hashtable_get_fresh sg fuel h k :
  0 <= calculate_hash sg k -> hashtable_get sg fuel fresh_table h k = Done 0.
Proof.
  intros Hk.
  destruct (table_ok_bucket sg fresh_table h k (table_ok_fresh h) Hk)
    as (j & p & l & Hj & Hp & Hc).
  pose proof (fresh_table_lookup _ _ Hp). subst p.
  unfold hashtable_get. rewrite (array_at_index sg _ j NULL k Hp Hj). simpl.
  now destruct fuel.
Qed.

(** C7.  The claim: on a freshly created table, [hashtable_get] returns
    0 for every key never set.  Where [char] is signed, the key whose
    only byte is 0xFF hashes to -1 and [hashtable_get] reads
    [ht->array[-1]], outside the array. *)
Theorem hashtable_get_fresh_negative_hash (fuel : nat) (h : heap) :
  hashtable_create true = Some fresh_table /\
  hashtable_get true fuel fresh_table h key_ff = Fault.
Proof.
  split; reflexivity.
Qed.

(** Every call of [hashtable_set] whose [malloc] succeeded and that
    returns leaves one node more in the heap, whether the key was
    present or not. *)
Lemma hashtable_set_allocates sg a fuel ht h k v r ht' h' :
  table_ok ht h -> h !! a = None ->
  hashtable_set sg (Some a) fuel ht h k v = Done (r, ht', h') ->
  size h' = S (size h).
Proof.
  intros Hok Hfresh Hset.
  destruct (hashtable_set_Done sg _ _ _ _ _ _ _ _ _ Hset)
    as [(Hn & _)|(a' & j & p & _ & _ & Hj & Hp)]; [discriminate|].
  destruct (proj2 Hok _ _ Hp) as [l Hl].
  destruct (hashtable_set_chain sg a fuel ht h k v j p l Hp Hj Hl Hfresh)
    as [(ht2 & h2 & p' & Hset' & _ & _ & _ & Hdom)|[Hset' _]];
    rewrite Hset in Hset'; [|discriminate].
  injection Hset' as _ _ <-.
  rewrite <- !size_dom, Hdom. rewrite size_union.
  - rewrite size_singleton. reflexivity.
  - apply disjoint_singleton_l. now apply not_elem_of_dom.
Qed.

(** C5.  The claim: [hashtable_set] allocates no node when the key is
    already present.  The code creates the node before it looks at the
    bucket: the second [set] of "eric" overwrites the value in the node
    at address 1 and leaves the node it allocated at address 2 in the
    heap, outside the chain. *)
Theorem hashtable_set_overwrite_allocates :
  exists ht1 h1 ht2 h2,
    hashtable_set true (Some 1%positive) 8 fresh_table ∅ "eric" 111 = Done (0, ht1, h1) /\
    hashtable_set true (Some 2%positive) 8 ht1 h1 "eric" 222 = Done (0, ht2, h2) /\
    size h1 = 1%nat /\
    size h2 = 2%nat /\
    array ht2 !! 19%nat = Some (Some 1%positive) /\
    chain h2 (Some 1%positive) [(1%positive, strncpy "eric" HASHTABLE_KEY_SIZE, 222)] /\
    h2 !! 2%positive = Some (Node NULL (strncpy "eric" HASHTABLE_KEY_SIZE) 222).
Proof.
  eexists _, _, _, _.
  split; [vm_compute; reflexivity|].
  split; [vm_compute; reflexivity|].
  split; [reflexivity|]. split; [reflexivity|]. split; [reflexivity|].
  split; [|vm_compute; reflexivity].
  split; [reflexivity|]. exists NULL. split; [vm_compute; reflexivity|reflexivity].
Qed.

(** ** Set, then get (C1, C4) *)

Section SetGet.

Variable sg : bool.

(** A returning call of [hashtable_set] with a block from [malloc], on
    a table whose bucket for the key is the chain [l]. *)
Lemma hashtable_set_bucket a fuel ht h k v r ht' h' j p l :
  array ht !! j = Some p ->
  calculate_hash sg k = Z.of_nat j ->
  chain h p l ->
  h !! a = None ->
  hashtable_set sg (Some a) fuel ht h k v = Done (r, ht', h') ->
  r = 0 /\
  exists p',
    array ht' = <[j := p']> (array ht) /\
    array ht' !! j = Some p' /\
    chain h' p' (set_entries a k v l) /\
    (forall x, x <> a -> x ∉ e_addr <$> l -> h' !! x = h !! x).
Proof.
  intros Hp Hj Hl Hfresh Hset.
  destruct (hashtable_set_chain sg a fuel ht h k v j p l Hp Hj Hl Hfresh)
    as [(ht2 & h2 & p' & Hset' & Harr & Hc & Hfr & _)|[Hset' _]];
    rewrite Hset in Hset'; [|discriminate].
  injection Hset' as -> -> ->. split; [reflexivity|].
  exists p'. split; [exact Harr|]. split; [|auto].
  rewrite Harr. apply list_lookup_insert_eq. eapply lookup_lt_Some, Hp.
Qed.

Lemma hashtable_get_after_set a k v l ht' h' j p' :
  (strnlen k HASHTABLE_KEY_SIZE < HASHTABLE_KEY_SIZE)%nat ->
  calculate_hash sg k = Z.of_nat j ->
  array ht' !! j = Some p' ->
  chain h' p' (set_entries a k v l) ->
  forall fuel, (List.length (set_entries a k v l) <= fuel)%nat ->
    hashtable_get sg fuel ht' h' k = Done v.
Proof.
  intros Hs Hj Hp Hc fuel Hfuel.
  destruct (hashtable_get_chain sg fuel ht' h' k j p' _ Hp Hj Hc) as [H|[_ Hlt]]; [|lia].
  now rewrite get_set_entries in H.
Qed.

End SetGet.

(** C1, the claim as stated fails: when [malloc] returns [NULL],
    [hashtable_set] returns -1 and stores nothing, and the [get] that
    follows returns 0, not the value. *)
Lemma set_get_allocation_failure :
  exists ht' h',
    hashtable_set true NULL 8 fresh_table ∅ "eric" 111 = Done (-1, ht', h') /\
    hashtable_get true 8 ht' h' "eric" = Done 0 /\
    hashtable_get true 8 ht' h' "eric" <> Done 111.
Proof.
  eexists _, _. split; [reflexivity|]. split; [reflexivity|].
  vm_compute. discriminate.
Qed.

(** C1, amended.  On every table whose buckets are chains, for every
    key shorter than K and every value: when [hashtable_set] returns 0,
    a following [hashtable_get] of the key returns the value (given as
    many iterations as the chain has nodes); and [hashtable_set] does
    return 0 when [malloc] gave a block and the hash of the key is not
    negative. *)
Theorem set_then_get (sg : bool) (ht : hashtable_t) (h : heap) (k : string) (v : Z) :
  table_ok ht h ->
  short_key k ->
  (forall aux fuel ht' h',
     fresh_for aux h ->
     hashtable_set sg aux fuel ht h k v = Done (0, ht', h') ->
     exists n, forall fuel', (n <= fuel')%nat ->
       hashtable_get sg fuel' ht' h' k = Done v) /\
  (forall a,
     h !! a = None ->
     0 <= calculate_hash sg k ->
     exists n, forall fuel, (n <= fuel)%nat ->
       exists ht' h', hashtable_set sg (Some a) fuel ht h k v = Done (0, ht', h')).
Proof.
  intros Hok Hshort. apply short_key_strnlen in Hshort. split.
  - intros aux fuel ht' h' Hfresh Hset.
    destruct (hashtable_set_Done sg _ _ _ _ _ _ _ _ _ Hset)
      as [(_ & Hr & _)|(a & j & p & -> & _ & Hj & Hp)]; [discriminate|].
    destruct (proj2 Hok _ _ Hp) as [l Hl].
    destruct (hashtable_set_bucket sg a fuel ht h k v 0 ht' h' j p l Hp Hj Hl Hfresh Hset)
      as (_ & p' & _ & Hp' & Hc' & _).
    exists (List.length (set_entries a k v l)).
    now apply (hashtable_get_after_set sg a k v l ht' h' j p').
  - intros a Hfresh Hk.
    destruct (table_ok_bucket sg ht h k Hok Hk) as (j & p & l & Hj & Hp & Hl).
    exists (List.length l). intros fuel Hfuel.
    destruct (hashtable_set_chain sg a fuel ht h k v j p l Hp Hj Hl Hfresh)
      as [(ht2 & h2 & p' & Hset' & _)|[_ Hlt]]; [eauto|lia].
Qed.

Lemma set_then_get_witness :
  (exists n, forall fuel', (n <= fuel')%nat ->
     hashtable_get true fuel' (table_of after_eric) (heap_of after_eric) "eric" = Done 111) /\
  (exists n, forall fuel, (n <= fuel)%nat ->
     exists ht' h',
       hashtable_set true (Some 1%positive) fuel fresh_table ∅ "eric" 111 = Done (0, ht', h')).
Proof.
  assert (Hshort : short_key "eric") by (vm_compute; lia).
  destruct (set_then_get true fresh_table ∅ "eric" 111 (table_ok_fresh ∅) Hshort)
    as [Hget Hset].
  split.
  - apply (Hget (Some 1%positive) 8%nat); [reflexivity|vm_compute; reflexivity].
  - apply Hset; [reflexivity|vm_compute; discriminate].
Defined.

(** C4, the claim as stated fails on allocation failure.  When the
    first [set] gets no block and the second does, the bucket has no
    node after the first call and one after the second; when the first
    gets a block and the second does not, [get] still returns the first
    value. *)
Lemma overwrite_allocation_failure :
  (exists ht1 h1 ht2 h2,
     hashtable_set true NULL 8 fresh_table ∅ "eric" 111 = Done (-1, ht1, h1) /\
     hashtable_set true (Some 1%positive) 8 ht1 h1 "eric" 222 = Done (0, ht2, h2) /\
     array ht1 !! 19%nat = Some NULL /\
     chain h1 NULL [] /\
     array ht2 !! 19%nat = Some (Some 1%positive) /\
     chain h2 (Some 1%positive) [(1%positive, strncpy "eric" HASHTABLE_KEY_SIZE, 222)]) /\
  (exists ht2 h2,
     hashtable_set true NULL 8 (table_of after_eric) (heap_of after_eric) "eric" 222
       = Done (-1, ht2, h2) /\
     hashtable_get true 8 ht2 h2 "eric" = Done 111).
Proof.
  split.
  - eexists _, _, _, _.
    split; [reflexivity|]. split; [vm_compute; reflexivity|].
    split; [reflexivity|]. split; [reflexivity|]. split; [reflexivity|].
    split; [reflexivity|]. exists NULL. split; [vm_compute; reflexivity|reflexivity].
  - eexists _, _. split; [vm_compute; reflexivity|]. vm_compute; reflexivity.
Qed.

(** C4, amended.  On every table whose buckets are chains, for every
    key shorter than K: when two calls of [hashtable_set] with the key
    both return 0, a following [hashtable_get] returns the second value,
    and the chain of the key's bucket has as many nodes after the
    second call as after the first. *)
Theorem set_twice_overwrites (sg : bool) (ht : hashtable_t) (h : heap) (k : string)
  (v1 v2 : Z) (aux1 aux2 : ptr) (fuel1 fuel2 : nat)
  (ht1 ht2 : hashtable_t) (h1 h2 : heap) :
  table_ok ht h ->
  short_key k ->
  fresh_for aux1 h ->
  fresh_for aux2 h1 ->
  hashtable_set sg aux1 fuel1 ht h k v1 = Done (0, ht1, h1) ->
  hashtable_set sg aux2 fuel2 ht1 h1 k v2 = Done (0, ht2, h2) ->
  (exists n, forall fuel, (n <= fuel)%nat -> hashtable_get sg fuel ht2 h2 k = Done v2) /\
  (exists j p1 p2 l1 l2,
     calculate_hash sg k = Z.of_nat j /\
     array ht1 !! j = Some p1 /\ chain h1 p1 l1 /\
     array ht2 !! j = Some p2 /\ chain h2 p2 l2 /\
     List.length l2 = List.length l1).
Proof.
  intros Hok Hshort Hf1 Hf2 Hset1 Hset2. apply short_key_strnlen in Hshort.
  destruct (hashtable_set_Done sg _ _ _ _ _ _ _ _ _ Hset1)
    as [(_ & Hr & _)|(a1 & j & p & -> & _ & Hj & Hp)]; [discriminate|].
  destruct (proj2 Hok _ _ Hp) as [l Hl].
  destruct (hashtable_set_bucket sg a1 fuel1 ht h k v1 0 ht1 h1 j p l Hp Hj Hl Hf1 Hset1)
    as (_ & p1 & _ & Hp1 & Hc1 & _).
  destruct (hashtable_set_Done sg _ _ _ _ _ _ _ _ _ Hset2)
    as [(_ & Hr & _)|(a2 & j' & p' & -> & _ & _ & _)]; [discriminate|].
  destruct (hashtable_set_bucket sg a2 fuel2 ht1 h1 k v2 0 ht2 h2 j p1 _ Hp1 Hj Hc1 Hf2 Hset2)
    as (_ & p2 & _ & Hp2 & Hc2 & _).
  split.
  - eexists.
    now apply (hashtable_get_after_set sg a2 k v2 (set_entries a1 k v1 l) ht2 h2 j p2).
  - exists j, p1, p2, (set_entries a1 k v1 l), (set_entries a2 k v2 (set_entries a1 k v1 l)).
    repeat (split; [assumption|]). now apply set_set_entries_length.
Qed.

Lemma set_twice_overwrites_witness :
  (exists n, forall fuel, (n <= fuel)%nat ->
     hashtable_get true fuel (table_of after_eric_again) (heap_of after_eric_again) "eric"
       = Done 222) /\
  (exists j p1 p2 l1 l2,
     calculate_hash true "eric" = Z.of_nat j /\
     array (table_of after_eric) !! j = Some p1 /\
     chain (heap_of after_eric) p1 l1 /\
     array (table_of after_eric_again) !! j = Some p2 /\
     chain (heap_of after_eric_again) p2 l2 /\
     List.length l2 = List.length l1).
Proof.
  apply (set_twice_overwrites true fresh_table ∅ "eric" 111 222
           (Some 1%positive) (Some 2%positive) 8 8
           (table_of after_eric) (table_of after_eric_again)
           (heap_of after_eric) (heap_of after_eric_again)).
  - apply table_ok_fresh.
  - vm_compute. lia.
  - reflexivity.
  - vm_compute. reflexivity.
  - vm_compute. reflexivity.
  - vm_compute. reflexivity.
Defined.

(** ** No key twice in a chain (C3) *)

Section Invariant.

Variable sg : bool.

(** Two buckets of a table built from accepted keys share no node:
    a node's key hashes to the index of its bucket. *)
Lemma bucket_disjoint h i j p q li lj e :
  chain h p li -> chain h q lj ->
  Forall (fun s => calculate_hash sg s = Z.of_nat i) (e_key <$> li) ->
  Forall (fun s => calculate_hash sg s = Z.of_nat j) (e_key <$> lj) ->
  i <> j -> e ∈ li -> e_addr e ∉ e_addr <$> lj.
Proof.
  intros Hci Hcj Hi Hj Hne He Hin.
  apply list_elem_of_fmap in Hin as (e' & Ha & He').
  destruct (chain_lookup _ _ _ _ Hci He) as (nx & Hl).
  destruct (chain_lookup _ _ _ _ Hcj He') as (nx' & Hl').
  rewrite Ha, Hl' in Hl. injection Hl as _ Hk _.
  rewrite Forall_forall in Hi, Hj.
  pose proof (Hi (e_key e) (list_elem_of_fmap_2 e_key _ _ He)) as H1.
  pose proof (Hj (e_key e') (list_elem_of_fmap_2 e_key _ _ He')) as H2.
  rewrite Hk in H2. rewrite H1 in H2. lia.
Qed.

(** [hashtable_set] with an accepted key keeps the invariant. *)
Lemma table_inv_set aux fuel ht h k v r ht' h' :
  table_inv sg ht h ->
  short_key k ->
  fresh_for aux h ->
  hashtable_set sg aux fuel ht h k v = Done (r, ht', h') ->
  table_inv sg ht' h'.
Proof.
  intros [Hlen Hinv] Hshort Hfresh Hset. apply short_key_strnlen in Hshort.
  destruct (hashtable_set_Done sg _ _ _ _ _ _ _ _ _ Hset)
    as [(_ & _ & -> & ->)|(a & j & p & -> & _ & Hj & Hp)]; [now split|].
  destruct (Hinv _ _ Hp) as (l & Hl & Hnd & Hhash).
  destruct (hashtable_set_bucket sg a fuel ht h k v r ht' h' j p l Hp Hj Hl Hfresh Hset)
    as (_ & p' & Harr & Hp' & Hc' & Hframe).
  split; [now rewrite Harr, length_insert|].
  intros i q Hq. destruct (decide (i = j)) as [->|Hne].
  - rewrite Hp' in Hq. injection Hq as <-.
    exists (set_entries a k v l). split; [exact Hc'|]. split.
    + now apply set_entries_NoDup.
    + now apply set_entries_hash.
  - rewrite Harr, list_lookup_insert_ne in Hq by congruence.
    destruct (Hinv _ _ Hq) as (li & Hli & Hndi & Hhashi).
    exists li. split; [|auto].
    eapply chain_frame; [|exact Hli]. intros e He. apply Hframe.
    + intros Heq. destruct (chain_lookup _ _ _ _ Hli He) as (nx & Hlk).
      rewrite Heq in Hlk. simpl in Hfresh. congruence.
    + eapply (bucket_disjoint h i j q p li l); eassumption.
Qed.

Lemma reachable_table_inv ht h :
  reachable sg short_key ht h -> table_inv sg ht h.
Proof.
  induction 1 as [ht h Hcreate|ht h aux fuel k v r ht' h' _ IH Hk Hfresh Hset].
  - injection Hcreate as <-. apply table_inv_fresh.
  - eapply table_inv_set; eassumption.
Qed.

Lemma table_inv_ok ht h : table_inv sg ht h -> table_ok ht h.
Proof.
  intros [Hlen Hinv]. split; [exact Hlen|].
  intros i p Hp. destruct (Hinv _ _ Hp) as (l & Hl & _). eauto.
Qed.

Lemma table_inv_distinct ht h : table_inv sg ht h -> distinct_keys ht h.
Proof.
  intros [_ Hinv] i p l Hp Hl.
  destruct (Hinv _ _ Hp) as (l' & Hl' & Hnd & _).
  now rewrite (chain_functional _ _ _ _ Hl Hl').
Qed.

Lemma NoDup_fmap_eq {A B : Type} (f : A -> B) (l : list A) (x y : A) :
  NoDup (f <$> l) -> x ∈ l -> y ∈ l -> f x = f y -> x = y.
Proof.
  induction l as [|z l IH]; [inversion 2|].
  rewrite fmap_cons, NoDup_cons. intros [Hnin Hnd] Hx Hy Heq.
  apply elem_of_cons in Hx as [->|Hx]; apply elem_of_cons in Hy as [->|Hy].
  - reflexivity.
  - exfalso. apply Hnin. rewrite Heq. now apply list_elem_of_fmap_2.
  - exfalso. apply Hnin. rewrite <- Heq. now apply list_elem_of_fmap_2.
  - now apply IH.
Qed.

Lemma table_inv_distinct_table ht h : table_inv sg ht h -> distinct_keys_table ht h.
Proof.
  intros [_ Hinv] i j p q li lj e e' Hp Hli He Hq Hlj He' Hk.
  destruct (Hinv _ _ Hp) as (li' & Hli' & Hndi & Hhi).
  destruct (Hinv _ _ Hq) as (lj' & Hlj' & Hndj & Hhj).
  rewrite <- (chain_functional _ _ _ _ Hli Hli') in Hndi, Hhi.
  rewrite <- (chain_functional _ _ _ _ Hlj Hlj') in Hndj, Hhj.
  rewrite Forall_forall in Hhi, Hhj.
  pose proof (Hhi _ (list_elem_of_fmap_2 e_key _ _ He)) as H1.
  pose proof (Hhj _ (list_elem_of_fmap_2 e_key _ _ He')) as H2.
  rewrite Hk, H2 in H1. assert (i = j) as -> by lia.
  split; [reflexivity|].
  rewrite Hp in Hq. injection Hq as <-.
  rewrite (chain_functional _ _ _ _ Hlj Hli) in He'.
  now apply (NoDup_fmap_eq e_key li).
Qed.

End Invariant.

(** C3, the claim as stated fails: [hashtable_node_find_by_key] finds
    no key of K bytes or more, so a second [set] of such a key appends
    a second node with the same stored key. *)
Lemma duplicate_long_key :
  reachable true (fun _ => True) (table_of after_long_again) (heap_of after_long_again) /\
  array (table_of after_long_again) !! 4%nat = Some (Some 1%positive) /\
  chain (heap_of after_long_again) (Some 1%positive)
    [(1%positive, long_key, 1); (2%positive, long_key, 2)] /\
  ~ distinct_keys (table_of after_long_again) (heap_of after_long_again).
Proof.
  assert (Hch : chain (heap_of after_long_again) (Some 1%positive)
                  [(1%positive, long_key, 1); (2%positive, long_key, 2)]).
  { split; [reflexivity|]. exists (Some 2%positive). split; [vm_compute; reflexivity|].
    split; [reflexivity|]. exists NULL. split; [vm_compute; reflexivity|reflexivity]. }
  assert (Harr : array (table_of after_long_again) !! 4%nat = Some (Some 1%positive))
    by (vm_compute; reflexivity).
  split; [|split; [exact Harr|split; [exact Hch|]]].
  - apply (reach_set true _ (table_of after_long) (heap_of after_long)
             (Some 2%positive) 8 long_key 2 0).
    + apply (reach_set true _ fresh_table ∅ (Some 1%positive) 8 long_key 1 0).
      * apply reach_create. reflexivity.
      * exact I.
      * reflexivity.
      * vm_compute. reflexivity.
    + exact I.
    + vm_compute. reflexivity.
    + vm_compute. reflexivity.
  - intros Hd. specialize (Hd _ _ _ Harr Hch).
    rewrite !fmap_cons in Hd. apply NoDup_cons in Hd as [Hnin _].
    apply Hnin. apply elem_of_cons. now left.
Qed.

(** C3, amended.  After any sequence of [hashtable_set] calls with keys
    shorter than K, starting from a freshly created table, every bucket
    is a chain, no two nodes of a chain store the same key, and no two
    nodes of the whole table do; every further such call keeps it so. *)
Theorem reachable_distinct_keys (sg : bool) (ht : hashtable_t) (h : heap) :
  reachable sg short_key ht h ->
  table_ok ht h /\
  distinct_keys ht h /\
  distinct_keys_table ht h /\
  (forall aux fuel k v r ht' h',
     short_key k -> fresh_for aux h ->
     hashtable_set sg aux fuel ht h k v = Done (r, ht', h') ->
     table_ok ht' h' /\ distinct_keys ht' h' /\ distinct_keys_table ht' h').
Proof.
  intros Hreach. pose proof (reachable_table_inv sg ht h Hreach) as Hinv.
  split; [now apply (table_inv_ok sg)|]. split; [now apply (table_inv_distinct sg)|].
  split; [now apply (table_inv_distinct_table sg)|].
  intros aux fuel k v r ht' h' Hk Hfresh Hset.
  pose proof (table_inv_set sg aux fuel ht h k v r ht' h' Hinv Hk Hfresh Hset) as Hinv'.
  split; [now apply (table_inv_ok sg)|].
  split; [now apply (table_inv_distinct sg)|now apply (table_inv_distinct_table sg)].
Qed.

Lemma reachable_after_john :
  reachable true short_key (table_of after_john) (heap_of after_john).
Proof.
  apply (reach_set true _ (table_of after_erhd) (heap_of after_erhd)
           (Some 3%positive) 8 "john" 333 0).
  - apply (reach_set true _ (table_of after_eric) (heap_of after_eric)
             (Some 2%positive) 8 "erhd" 222 0).
    + apply (reach_set true _ fresh_table ∅ (Some 1%positive) 8 "eric" 111 0).
      * apply reach_create. reflexivity.
      * vm_compute. lia.
      * reflexivity.
      * vm_compute. reflexivity.
    + vm_compute. lia.
    + vm_compute. reflexivity.
    + vm_compute. reflexivity.
  - vm_compute. lia.
  - vm_compute. reflexivity.
  - vm_compute. reflexivity.
Defined.

Lemma reachable_distinct_keys_witness :
  table_ok (table_of after_john) (heap_of after_john) /\
  distinct_keys (table_of after_john) (heap_of after_john) /\
  distinct_keys_table (table_of after_john) (heap_of after_john).
Proof.
  destruct (reachable_distinct_keys true _ _ reachable_after_john) as (Hok & Hd & Ht & _).
  split; [exact Hok|split; [exact Hd|exact Ht]].
Defined.

(** ** The run of [main] *)

(** After the three calls of [main], the three keys read back their
    values, the colliding keys "eric" and "erhd" share one chain in
    insertion order, and a key never set reads 0. *)
Example main_scenario :
  hashtable_get true 8 (table_of after_john) (heap_of after_john) "eric" = Done 111 /\
  hashtable_get true 8 (table_of after_john) (heap_of after_john) "erhd" = Done 222 /\
  hashtable_get true 8 (table_of after_john) (heap_of after_john) "john" = Done 333 /\
  hashtable_get true 8 (table_of after_john) (heap_of after_john) "missing" = Done 0 /\
  array (table_of after_john) !! 19%nat = Some (Some 1%positive) /\
  chain (heap_of after_john) (Some 1%positive)
    [(1%positive, strncpy "eric" HASHTABLE_KEY_SIZE, 111);
     (2%positive, strncpy "erhd" HASHTABLE_KEY_SIZE, 222)].
Proof.
  do 5 (split; [vm_compute; reflexivity|]).
  split; [reflexivity|]. exists (Some 2%positive). split; [vm_compute; reflexivity|].
  split; [reflexivity|]. exists NULL. split; [vm_compute; reflexivity|reflexivity].
Qed.

(** * Further properties of the code *)

(** ** The table sees a key through its first K bytes *)

Section Truncation.

Implicit Types (s k : string) (n : nat).

Lemma strncpy_S k n :
  strncpy k (S n) =
  String (head_char k) (strncpy (if is_nul (head_char k) then EmptyString else tail_str k) n).
Proof. reflexivity. Qed.

Lemma strnlen_S c s n :
  strnlen (String c s) (S n) = if is_nul c then O else S (strnlen s n).
Proof. reflexivity. Qed.

Lemma strncmp_S s1 s2 n :
  strncmp s1 s2 (S n) =
  if negb (Ascii.eqb (head_char s1) (head_char s2))
  then uchar (head_char s1) - uchar (head_char s2)
  else if is_nul (head_char s1) then 0
  else strncmp (tail_str s1) (tail_str s2) n.
Proof. reflexivity. Qed.

Lemma strncmp_truncated s k n : strncmp s (strncpy k n) n = strncmp s k n.
Proof.
  revert s k. induction n as [|n IH]; intros s k; [reflexivity|].
  rewrite strncpy_S, !strncmp_S. cbn [head_char tail_str].
  destruct (negb (Ascii.eqb (head_char s) (head_char k))) eqn:Ene; [reflexivity|].
  destruct (is_nul (head_char s)) eqn:Es; [reflexivity|].
  apply negb_false_iff, Ascii.eqb_eq in Ene. rewrite <- Ene, Es. apply IH.
Qed.

Lemma strnlen_truncated k n : strnlen (strncpy k n) n = strnlen k n.
Proof.
  revert k. induction n as [|n IH]; intros k; [now destruct k|].
  rewrite strncpy_S, strnlen_S. destruct k as [|c k]; cbn [head_char tail_str].
  - reflexivity.
  - rewrite strnlen_S. destruct (is_nul c); [reflexivity|]. now rewrite IH.
Qed.

Lemma find_loop_truncated fuel h p k :
  find_loop fuel h p (strncpy k HASHTABLE_KEY_SIZE) = find_loop fuel h p k.
Proof.
  revert p. induction fuel as [|fuel IH]; intros [a|]; try reflexivity.
  simpl. destruct (h !! a) as [c|]; simpl; [|reflexivity].
  rewrite strncmp_truncated.
  destruct (strncmp (key c) k HASHTABLE_KEY_SIZE =? 0); [reflexivity|apply IH].
Qed.

Lemma get_loop_truncated fuel h p k :
  get_loop fuel h p (strncpy k HASHTABLE_KEY_SIZE) = get_loop fuel h p k.
Proof.
  revert p. induction fuel as [|fuel IH]; intros [a|]; try reflexivity.
  simpl. destruct (h !! a) as [c|]; simpl; [|reflexivity].
  rewrite strncmp_truncated.
  destruct (strncmp (key c) k HASHTABLE_KEY_SIZE =? 0); [reflexivity|apply IH].
Qed.

Lemma hashtable_get_truncated sg fuel ht h k :
  hashtable_get sg fuel ht h (truncated k) = hashtable_get sg fuel ht h k.
Proof.
  unfold hashtable_get. rewrite calculate_hash_strncpy.
  destruct (array_at ht (calculate_hash sg k)); simpl; try reflexivity.
  apply get_loop_truncated.
Qed.

Lemma hashtable_set_truncated sg aux fuel ht h k v :
  hashtable_set sg aux fuel ht h (truncated k) v = hashtable_set sg aux fuel ht h k v.
Proof.
  unfold hashtable_set, hashtable_node_create, hashtable_node_find_by_key.
  rewrite calculate_hash_strncpy, strncpy_idem, strnlen_truncated.
  destruct aux as [a|]; [|reflexivity].
  destruct (array_at ht (calculate_hash sg k)) as [[b|]| |]; try reflexivity.
  cbn [mbind outcome_bind]. now rewrite find_loop_truncated.
Qed.

End Truncation.

(** X1.  [hashtable_get] and [hashtable_set] see a key only through
    its first K bytes up to the terminator: two keys that [strncpy]
    truncates to the same K bytes hash alike, read alike, and are set
    alike, on every table and heap. *)
Theorem same_first_bytes_same_key (sg : bool) (aux : ptr) (fuel : nat)
  (ht : hashtable_t) (h : heap) (k1 k2 : string) (v : Z) :
  truncated k1 = truncated k2 ->
  calculate_hash sg k1 = calculate_hash sg k2 /\
  hashtable_get sg fuel ht h k1 = hashtable_get sg fuel ht h k2 /\
  hashtable_set sg aux fuel ht h k1 v = hashtable_set sg aux fuel ht h k2 v.
Proof.
  intros Heq. split; [|split].
  - transitivity (calculate_hash sg (truncated k1));
      [symmetry; apply calculate_hash_strncpy|].
    rewrite Heq. apply calculate_hash_strncpy.
  - transitivity (hashtable_get sg fuel ht h (truncated k1));
      [symmetry; apply hashtable_get_truncated|].
    rewrite Heq. apply hashtable_get_truncated.
  - transitivity (hashtable_set sg aux fuel ht h (truncated k1) v);
      [symmetry; apply hashtable_set_truncated|].
    rewrite Heq. apply hashtable_set_truncated.
Qed.

Lemma same_first_bytes_same_key_witness :
  calculate_hash true longer_key = calculate_hash true long_key /\
  hashtable_get true 8 (table_of after_long) (heap_of after_long) longer_key =
    hashtable_get true 8 (table_of after_long) (heap_of after_long) long_key /\
  hashtable_set true (Some 2%positive) 8 (table_of after_long) (heap_of after_long)
      longer_key 5 =
    hashtable_set true (Some 2%positive) 8 (table_of after_long) (heap_of after_long)
      long_key 5.
Proof.
  apply (same_first_bytes_same_key true (Some 2%positive) 8
           (table_of after_long) (heap_of after_long) longer_key long_key 5).
  vm_compute. reflexivity.
Defined.

(** ** What every table built by [hashtable_set] satisfies *)

Section WellFormed.

Variable sg : bool.

Implicit Types (h : heap) (p q : ptr) (l : list entry) (e : entry) (k : string)
  (ht : hashtable_t).

Lemma set_entries_keys_any a k v l :
  e_key <$> set_entries a k v l = e_key <$> l \/
  e_key <$> set_entries a k v l = (e_key <$> l) ++ [strncpy k HASHTABLE_KEY_SIZE].
Proof.
  destruct (find_entries k l) as [f|] eqn:Ef.
  - left. eapply set_entries_found, Ef.
  - right. rewrite set_entries_no_match by exact Ef. now rewrite fmap_app.
Qed.

Lemma set_entries_key_wf a k v l j :
  calculate_hash sg k = Z.of_nat j ->
  Forall (key_wf sg j) (e_key <$> l) ->
  Forall (key_wf sg j) (e_key <$> set_entries a k v l).
Proof.
  intros Hk Hall. destruct (set_entries_keys_any a k v l) as [->| ->]; [exact Hall|].
  apply Forall_app. split; [exact Hall|]. apply Forall_singleton. split.
  - now rewrite calculate_hash_strncpy.
  - apply strncpy_idem.
Qed.

(** Chains of different buckets share no node. *)
Lemma bucket_wf_disjoint h i j p q li lj e :
  chain h p li -> chain h q lj ->
  Forall (key_wf sg i) (e_key <$> li) ->
  Forall (key_wf sg j) (e_key <$> lj) ->
  i <> j -> e ∈ li -> e_addr e ∉ e_addr <$> lj.
Proof.
  intros Hci Hcj Hi Hj Hne He Hin.
  apply list_elem_of_fmap in Hin as (e' & Ha & He').
  destruct (chain_lookup _ _ _ _ Hci He) as (nx & Hl).
  destruct (chain_lookup _ _ _ _ Hcj He') as (nx' & Hl').
  rewrite Ha, Hl' in Hl. injection Hl as _ Hk _.
  rewrite Forall_forall in Hi, Hj.
  destruct (Hi (e_key e) (list_elem_of_fmap_2 e_key _ _ He)) as [H1 _].
  destruct (Hj (e_key e') (list_elem_of_fmap_2 e_key _ _ He')) as [H2 _].
  rewrite Hk in H2. rewrite H1 in H2. lia.
Qed.

(** A returning [hashtable_set] leaves the other buckets as they were. *)
Lemma hashtable_set_other_bucket a fuel ht h k v r ht' h' j i q li :
  table_wf sg ht h ->
  h !! a = None ->
  calculate_hash sg k = Z.of_nat j ->
  hashtable_set sg (Some a) fuel ht h k v = Done (r, ht', h') ->
  i <> j ->
  array ht !! i = Some q -> chain h q li -> Forall (key_wf sg i) (e_key <$> li) ->
  array ht' !! i = Some q /\ chain h' q li.
Proof.
  intros [Hlen Hwf] Hfresh Hj Hset Hne Hq Hli Hki.
  destruct (hashtable_set_Done sg _ _ _ _ _ _ _ _ _ Hset)
    as [(Hn & _)|(a' & j' & p & _ & _ & Hj' & Hp)]; [discriminate|].
  assert (j' = j) as -> by lia.
  destruct (Hwf _ _ Hp) as (l & Hl & Hkl).
  destruct (hashtable_set_bucket sg a fuel ht h k v r ht' h' j p l Hp Hj Hl Hfresh Hset)
    as (_ & p' & Harr & _ & _ & Hframe).
  split; [now rewrite Harr, list_lookup_insert_ne by congruence|].
  eapply chain_frame; [|exact Hli]. intros e He. apply Hframe.
  - intros Heq. destruct (chain_lookup _ _ _ _ Hli He) as (nx & Hlk).
    rewrite Heq in Hlk. congruence.
  - eapply (bucket_wf_disjoint h i j q p li l); eassumption.
Qed.

Lemma table_wf_set aux fuel ht h k v r ht' h' :
  table_wf sg ht h ->
  fresh_for aux h ->
  hashtable_set sg aux fuel ht h k v = Done (r, ht', h') ->
  table_wf sg ht' h'.
Proof.
  intros Hwf Hfresh Hset. pose proof Hwf as [Hlen Hinv].
  destruct (hashtable_set_Done sg _ _ _ _ _ _ _ _ _ Hset)
    as [(_ & _ & -> & ->)|(a & j & p & -> & _ & Hj & Hp)]; [exact Hwf|].
  destruct (Hinv _ _ Hp) as (l & Hl & Hkl).
  destruct (hashtable_set_bucket sg a fuel ht h k v r ht' h' j p l Hp Hj Hl Hfresh Hset)
    as (_ & p' & Harr & Hp' & Hc' & _).
  split; [now rewrite Harr, length_insert|].
  intros i q Hq. destruct (decide (i = j)) as [->|Hne].
  - rewrite Hp' in Hq. injection Hq as <-.
    exists (set_entries a k v l). split; [exact Hc'|]. now apply set_entries_key_wf.
  - rewrite Harr, list_lookup_insert_ne in Hq by congruence.
    destruct (Hinv _ _ Hq) as (li & Hli & Hki). exists li. split; [|exact Hki].
    eapply (hashtable_set_other_bucket a fuel ht h k v r ht' h' j i q li); eassumption.
Qed.

Lemma table_wf_fresh h : table_wf sg fresh_table h.
Proof.
  split; [unfold fresh_table; cbn [array]; apply length_replicate|].
  intros i p H. apply fresh_table_lookup in H. subst p.
  exists []. split; [reflexivity|constructor].
Qed.

Lemma reachable_table_wf allowed ht h :
  reachable sg allowed ht h -> table_wf sg ht h.
Proof.
  induction 1 as [ht h Hcreate|ht h aux fuel k v r ht' h' _ IH Hk Hfresh Hset].
  - injection Hcreate as <-. apply table_wf_fresh.
  - eapply table_wf_set; eassumption.
Qed.

Lemma table_wf_ok ht h : table_wf sg ht h -> table_ok ht h.
Proof.
  intros [Hlen Hinv]. split; [exact Hlen|].
  intros i p Hp. destruct (Hinv _ _ Hp) as (l & Hl & _). eauto.
Qed.

Lemma reachable_weaken (P Q : string -> Prop) ht h :
  (forall k, P k -> Q k) -> reachable sg P ht h -> reachable sg Q ht h.
Proof.
  intros HPQ. induction 1 as [ht h Hcreate|ht h aux fuel k v r ht' h' _ IH Hk Hfresh Hset].
  - now apply reach_create.
  - eapply reach_set; eauto.
Qed.

End WellFormed.

(** X2.  After any sequence of [hashtable_set] calls, with keys of any
    length, starting from a freshly created table: the array keeps its
    N slots, every bucket is a chain that ends, every node in bucket i
    stores a key that hashes to i and is K bytes as [strncpy] writes
    them, and chains of different buckets share no node. *)
Theorem reachable_well_formed (sg : bool) (ht : hashtable_t) (h : heap) :
  reachable sg (fun _ => True) ht h ->
  table_ok ht h /\
  (forall i p l e,
     array ht !! i = Some p -> chain h p l -> e ∈ l ->
     calculate_hash sg (e_key e) = Z.of_nat i /\
     String.length (e_key e) = HASHTABLE_KEY_SIZE /\
     truncated (e_key e) = e_key e) /\
  (forall i j p q li lj e,
     array ht !! i = Some p -> chain h p li ->
     array ht !! j = Some q -> chain h q lj ->
     i <> j -> e ∈ li -> e_addr e ∉ e_addr <$> lj).
Proof.
  intros Hreach. pose proof (reachable_table_wf sg _ ht h Hreach) as Hwf.
  split; [now apply (table_wf_ok sg)|]. destruct Hwf as [_ Hinv]. split.
  - intros i p l e Hp Hl He.
    destruct (Hinv _ _ Hp) as (l' & Hl' & Hk).
    rewrite <- (chain_functional _ _ _ _ Hl Hl') in Hk.
    rewrite Forall_forall in Hk.
    destruct (Hk _ (list_elem_of_fmap_2 e_key _ _ He)) as [Hh Hc].
    split; [exact Hh|]. split; [|exact Hc]. rewrite <- Hc. apply strncpy_length.
  - intros i j p q li lj e Hp Hli Hq Hlj Hne He.
    destruct (Hinv _ _ Hp) as (li' & Hli' & Hki).
    destruct (Hinv _ _ Hq) as (lj' & Hlj' & Hkj).
    rewrite <- (chain_functional _ _ _ _ Hli Hli') in Hki.
    rewrite <- (chain_functional _ _ _ _ Hlj Hlj') in Hkj.
    eapply (bucket_wf_disjoint sg h i j p q li lj); eassumption.
Qed.

Lemma reachable_well_formed_witness :
  table_ok (table_of after_john) (heap_of after_john).
Proof.
  apply (reachable_well_formed true (table_of after_john) (heap_of after_john)).
  apply (reachable_weaken true short_key). { intros k _. exact I. }
  exact reachable_after_john.
Defined.

(** ** Keys do not disturb each other *)

Section Frame.

Variable sg : bool.

Implicit Types (h : heap) (p q : ptr) (l : list entry) (e : entry) (k : string)
  (ht : hashtable_t).

Lemma get_matches_truncated_eq k k' stored :
  get_matches k stored = true -> get_matches k' stored = true ->
  truncated k = truncated k'.
Proof.
  unfold get_matches. rewrite !Z.eqb_eq, !strncmp_zero_iff. congruence.
Qed.

Lemma get_matches_other k k' :
  truncated k <> truncated k' -> get_matches k' (strncpy k HASHTABLE_KEY_SIZE) = false.
Proof.
  intros Hne. unfold get_matches. apply Z.eqb_neq.
  rewrite strncmp_zero_iff, strncpy_idem. exact Hne.
Qed.

Lemma get_set_entries_other a k k' v l :
  truncated k <> truncated k' ->
  get_entries k' (set_entries a k v l) = get_entries k' l.
Proof.
  intros Hne. induction l as [|[[ea ek] ev] l IH].
  - cbn [set_entries get_entries e_key e_value fst snd].
    now rewrite get_matches_other.
  - cbn [set_entries get_entries e_key e_value e_addr fst snd].
    destruct (find_matches k ek) eqn:Ef; cbn [get_entries e_key e_value fst snd].
    + destruct (get_matches k' ek) eqn:Eg; [|reflexivity].
      exfalso. apply Hne. apply (get_matches_truncated_eq k k' ek); [|exact Eg].
      unfold find_matches in Ef. apply andb_true_iff in Ef. tauto.
    + now rewrite IH.
Qed.

(** The chain of any bucket, before and after a returning call of
    [hashtable_set] with another key, reads the same for [k']. *)
Lemma hashtable_set_frame aux fuel ht h k v r ht' h' k' j' q l' :
  table_wf sg ht h ->
  fresh_for aux h ->
  hashtable_set sg aux fuel ht h k v = Done (r, ht', h') ->
  truncated k <> truncated k' ->
  calculate_hash sg k' = Z.of_nat j' ->
  array ht !! j' = Some q -> chain h q l' ->
  exists q' l'', array ht' !! j' = Some q' /\ chain h' q' l'' /\
                 get_entries k' l'' = get_entries k' l'.
Proof.
  intros Hwf Hfresh Hset Hne Hj' Hq Hl'.
  destruct (hashtable_set_Done sg _ _ _ _ _ _ _ _ _ Hset)
    as [(_ & _ & -> & ->)|(a & j & p & -> & _ & Hj & Hp)]; [eauto|].
  destruct (decide (j' = j)) as [->|Hjj].
  - rewrite Hp in Hq. injection Hq as <-.
    destruct (hashtable_set_bucket sg a fuel ht h k v r ht' h' j p l' Hp Hj Hl' Hfresh Hset)
      as (_ & p' & _ & Hp' & Hc' & _).
    exists p', (set_entries a k v l'). split; [exact Hp'|]. split; [exact Hc'|].
    now apply get_set_entries_other.
  - destruct (proj2 Hwf _ _ Hq) as (l0 & Hl0 & Hk0).
    rewrite <- (chain_functional _ _ _ _ Hl' Hl0) in Hk0.
    destruct (hashtable_set_other_bucket sg a fuel ht h k v r ht' h' j j' q l'
                Hwf Hfresh Hj Hset Hjj Hq Hl' Hk0) as [Hq' Hc'].
    eauto.
Qed.

End Frame.

(** X3.  On a table built by [hashtable_set] calls, a further call
    with key [k] does not change what [hashtable_get] returns for a key
    [k'] that differs from [k] within the first K bytes, whether the
    two keys share a bucket or not and whether the call succeeds or
    fails. *)
Theorem set_keeps_other_keys (sg : bool) (ht : hashtable_t) (h : heap)
  (aux : ptr) (fuel : nat) (k : string) (v r : Z) (ht' : hashtable_t) (h' : heap)
  (k' : string) (fuel' : nat) (x : Z) :
  reachable sg (fun _ => True) ht h ->
  fresh_for aux h ->
  truncated k <> truncated k' ->
  hashtable_set sg aux fuel ht h k v = Done (r, ht', h') ->
  hashtable_get sg fuel' ht h k' = Done x ->
  exists n, forall f, (n <= f)%nat -> hashtable_get sg f ht' h' k' = Done x.
Proof.
  intros Hreach Hfresh Hne Hset Hget.
  pose proof (reachable_table_wf sg _ ht h Hreach) as Hwf.
  pose proof Hget as Hget0. unfold hashtable_get in Hget0.
  apply bind_Done in Hget0 as (q & Hat & _).
  apply array_at_Done in Hat as (j' & Hj' & Hq).
  destruct (proj2 Hwf _ _ Hq) as (l' & Hl' & _).
  destruct (hashtable_get_chain sg fuel' ht h k' j' q l' Hq Hj' Hl') as [Hg|[Hg _]];
    rewrite Hget in Hg; [injection Hg as ->|discriminate].
  destruct (hashtable_set_frame sg aux fuel ht h k v r ht' h' k' j' q l'
              Hwf Hfresh Hset Hne Hj' Hq Hl') as (q' & l'' & Hq' & Hl'' & Heq).
  exists (List.length l''). intros f Hf.
  destruct (hashtable_get_chain sg f ht' h' k' j' q' l'' Hq' Hj' Hl'') as [Hg|[_ Hlt]]; [|lia].
  now rewrite Hg, Heq.
Qed.

Lemma set_keeps_other_keys_witness :
  exists n, forall f, (n <= f)%nat ->
    hashtable_get true f (table_of after_erhd) (heap_of after_erhd) "eric" = Done 111.
Proof.
  apply (set_keeps_other_keys true (table_of after_eric) (heap_of after_eric)
           (Some 2%positive) 8 "erhd" 222 0 (table_of after_erhd) (heap_of after_erhd)
           "eric" 8 111).
  - apply (reach_set true _ fresh_table ∅ (Some 1%positive) 8 "eric" 111 0).
    + apply reach_create. reflexivity.
    + exact I.
    + reflexivity.
    + vm_compute. reflexivity.
  - vm_compute. reflexivity.
  - vm_compute. discriminate.
  - vm_compute. reflexivity.
  - vm_compute. reflexivity.
Defined.

(** X4.  On a table built from a fresh one by [hashtable_set] calls
    none of which used a key with the same first K bytes as [k'],
    [hashtable_get] of [k'] returns 0, provided the hash of [k'] is not
    negative. *)
Theorem get_of_key_never_set (sg : bool) (k' : string) (ht : hashtable_t) (h : heap) :
  reachable sg (fun k => truncated k <> truncated k') ht h ->
  0 <= calculate_hash sg k' ->
  exists n, forall fuel, (n <= fuel)%nat -> hashtable_get sg fuel ht h k' = Done 0.
Proof.
  intros Hreach Hk.
  assert (Hinv : exists j q l, calculate_hash sg k' = Z.of_nat j /\
                   array ht !! j = Some q /\ chain h q l /\ get_entries k' l = 0).
  { induction Hreach as [ht h Hcreate|ht h aux fuel k v r ht' h' Hreach IH Hne Hfresh Hset].
    - injection Hcreate as <-.
      destruct (table_ok_bucket sg fresh_table h k' (table_ok_fresh h) Hk)
        as (j & q & l & Hj & Hq & Hl).
      pose proof (fresh_table_lookup _ _ Hq). subst q. apply chain_null in Hl. subst l.
      exists j, NULL, []. split; [exact Hj|]. split; [exact Hq|]. split; reflexivity.
    - destruct IH as (j & q & l & Hj & Hq & Hl & Hg).
      pose proof (reachable_table_wf sg _ ht h Hreach) as Hwf.
      destruct (hashtable_set_frame sg aux fuel ht h k v r ht' h' k' j q l
                  Hwf Hfresh Hset Hne Hj Hq Hl) as (q' & l'' & Hq' & Hl'' & Heq).
      exists j, q', l''. rewrite Heq. split; [exact Hj|]. split; [exact Hq'|].
      split; [exact Hl''|exact Hg]. }
  destruct Hinv as (j & q & l & Hj & Hq & Hl & Hg).
  exists (List.length l). intros fuel Hfuel.
  destruct (hashtable_get_chain sg fuel ht h k' j q l Hq Hj Hl) as [H|[_ Hlt]]; [|lia].
  now rewrite H, Hg.
Qed.

Lemma get_of_key_never_set_witness :
  exists n, forall fuel, (n <= fuel)%nat ->
    hashtable_get true fuel (table_of after_erhd) (heap_of after_erhd) "missing" = Done 0.
Proof.
  apply (get_of_key_never_set true "missing").
  - apply (reach_set true _ (table_of after_eric) (heap_of after_eric)
             (Some 2%positive) 8 "erhd" 222 0).
    + apply (reach_set true _ fresh_table ∅ (Some 1%positive) 8 "eric" 111 0).
      * apply reach_create. reflexivity.
      * vm_compute. discriminate.
      * reflexivity.
      * vm_compute. reflexivity.
    + vm_compute. discriminate.
    + vm_compute. reflexivity.
    + vm_compute. reflexivity.
  - vm_compute. discriminate.
Defined.

(** ** Keys of K bytes or more *)

Section LongKeys.

Implicit Types (l : list entry) (e : entry) (k : string).

Lemma strlen_long_strnlen k :
  (HASHTABLE_KEY_SIZE <= strlen k)%nat ->
  (HASHTABLE_KEY_SIZE <= strnlen k HASHTABLE_KEY_SIZE)%nat.
Proof. rewrite strnlen_min. lia. Qed.

Lemma set_entries_long a k v l :
  (HASHTABLE_KEY_SIZE <= strlen k)%nat ->
  set_entries a k v l = l ++ [(a, strncpy k HASHTABLE_KEY_SIZE, v)].
Proof.
  intros Hlong. apply set_entries_no_match, find_entries_long, strlen_long_strnlen, Hlong.
Qed.

Lemma get_entries_app_match k l l2 e :
  e ∈ l -> get_matches k (e_key e) = true ->
  get_entries k (l ++ l2) = get_entries k l.
Proof.
  induction l as [|e0 l IH]; [inversion 1|].
  intros He Hm. simpl. destruct (get_matches k (e_key e0)) eqn:E; [reflexivity|].
  apply elem_of_cons in He as [->|He]; [congruence|]. now apply IH.
Qed.

Lemma get_entries_app_no_match k l l2 :
  (forall e, e ∈ l -> get_matches k (e_key e) = false) ->
  get_entries k (l ++ l2) = get_entries k l2.
Proof.
  induction l as [|e0 l IH]; [reflexivity|].
  intros Hno. simpl. rewrite (Hno e0) by (apply elem_of_cons; auto).
  apply IH. intros e He. apply Hno, elem_of_cons. auto.
Qed.

End LongKeys.

(** X5.  For a key of K bytes or more, on a table whose buckets are
    chains: two successful calls of [hashtable_set] append two nodes,
    so the chain of the key's bucket grows by one at the second call,
    and [hashtable_get] returns after the second call what it returned
    after the first: the value written later is never read.  When no
    stored key of the bucket had the key's first K bytes, that value is
    the first one. *)
Theorem long_key_first_set_wins (sg : bool) (ht : hashtable_t) (h : heap) (k : string)
  (v1 v2 : Z) (aux1 aux2 : ptr) (fuel1 fuel2 : nat)
  (ht1 ht2 : hashtable_t) (h1 h2 : heap) :
  table_ok ht h ->
  (HASHTABLE_KEY_SIZE <= strlen k)%nat ->
  fresh_for aux1 h ->
  fresh_for aux2 h1 ->
  hashtable_set sg aux1 fuel1 ht h k v1 = Done (0, ht1, h1) ->
  hashtable_set sg aux2 fuel2 ht1 h1 k v2 = Done (0, ht2, h2) ->
  exists x n j p p1 p2 l l1 l2,
    (forall fuel, (n <= fuel)%nat ->
       hashtable_get sg fuel ht1 h1 k = Done x /\
       hashtable_get sg fuel ht2 h2 k = Done x) /\
    calculate_hash sg k = Z.of_nat j /\
    array ht !! j = Some p /\ chain h p l /\
    array ht1 !! j = Some p1 /\ chain h1 p1 l1 /\
    array ht2 !! j = Some p2 /\ chain h2 p2 l2 /\
    List.length l1 = S (List.length l) /\
    List.length l2 = S (List.length l1) /\
    ((forall e, e ∈ l -> strncmp (e_key e) k HASHTABLE_KEY_SIZE <> 0) -> x = v1).
Proof.
  intros Hok Hlong Hf1 Hf2 Hset1 Hset2.
  destruct (hashtable_set_Done sg _ _ _ _ _ _ _ _ _ Hset1)
    as [(_ & Hr & _)|(a1 & j & p & -> & _ & Hj & Hp)]; [discriminate|].
  destruct (proj2 Hok _ _ Hp) as [l Hl].
  destruct (hashtable_set_bucket sg a1 fuel1 ht h k v1 0 ht1 h1 j p l Hp Hj Hl Hf1 Hset1)
    as (_ & p1 & _ & Hp1 & Hc1 & _).
  destruct (hashtable_set_Done sg _ _ _ _ _ _ _ _ _ Hset2)
    as [(_ & Hr & _)|(a2 & j' & p' & -> & _ & _ & _)]; [discriminate|].
  destruct (hashtable_set_bucket sg a2 fuel2 ht1 h1 k v2 0 ht2 h2 j p1 _ Hp1 Hj Hc1 Hf2 Hset2)
    as (_ & p2 & _ & Hp2 & Hc2 & _).
  rewrite (set_entries_long a1 k v1 l Hlong) in Hc1, Hc2.
  rewrite (set_entries_long a2 k v2 _ Hlong) in Hc2.
  set (n1 := (a1, strncpy k HASHTABLE_KEY_SIZE, v1)) in *.
  set (n2 := (a2, strncpy k HASHTABLE_KEY_SIZE, v2)) in *.
  assert (Hn1 : get_matches k (e_key n1) = true) by apply get_matches_strncpy.
  exists (get_entries k (l ++ [n1])), (List.length ((l ++ [n1]) ++ [n2])),
         j, p, p1, p2, l, (l ++ [n1]), ((l ++ [n1]) ++ [n2]).
  split; [|repeat (split; [assumption|])].
  - intros fuel Hfuel. split.
    + destruct (hashtable_get_chain sg fuel ht1 h1 k j p1 _ Hp1 Hj Hc1) as [H|[_ Hlt]];
        [exact H|rewrite !length_app in *; simpl in *; lia].
    + destruct (hashtable_get_chain sg fuel ht2 h2 k j p2 _ Hp2 Hj Hc2) as [H|[_ Hlt]];
        [|lia].
      rewrite H. f_equal. apply (get_entries_app_match k (l ++ [n1]) [n2] n1); [|exact Hn1].
      apply elem_of_app. right. apply list_elem_of_singleton. reflexivity.
  - split; [rewrite length_app; simpl; lia|]. split; [rewrite length_app; simpl; lia|].
    intros Hno. rewrite get_entries_app_no_match.
    + simpl. now rewrite Hn1.
    + intros e He. unfold get_matches. apply Z.eqb_neq. now apply Hno.
Qed.

Lemma long_key_first_set_wins_witness :
  exists x n j p p1 p2 l l1 l2,
    (forall fuel, (n <= fuel)%nat ->
       hashtable_get true fuel (table_of after_long) (heap_of after_long) long_key = Done x /\
       hashtable_get true fuel (table_of after_long_again) (heap_of after_long_again) long_key
         = Done x) /\
    calculate_hash true long_key = Z.of_nat j /\
    array fresh_table !! j = Some p /\ chain ∅ p l /\
    array (table_of after_long) !! j = Some p1 /\ chain (heap_of after_long) p1 l1 /\
    array (table_of after_long_again) !! j = Some p2 /\
    chain (heap_of after_long_again) p2 l2 /\
    List.length l1 = S (List.length l) /\
    List.length l2 = S (List.length l1) /\
    ((forall e, e ∈ l -> strncmp (e_key e) long_key HASHTABLE_KEY_SIZE <> 0) -> x = 1).
Proof.
  apply (long_key_first_set_wins true fresh_table ∅ long_key 1 2
           (Some 1%positive) (Some 2%positive) 8 8
           (table_of after_long) (table_of after_long_again)
           (heap_of after_long) (heap_of after_long_again)).
  - apply table_ok_fresh.
  - vm_compute. lia.
  - reflexivity.
  - vm_compute. reflexivity.
  - vm_compute. reflexivity.
  - vm_compute. reflexivity.
Defined.

(** ** Where a new node goes *)

(** X6.  [hashtable_node_insert] appends: given a chain from [parent]
    and a child outside it whose successor link is [NULL], the call
    returns once the iterations allowed reach the length of the chain,
    never faults, and leaves the same chain with the child as its new
    last node; no node outside the chain is written. *)
Theorem hashtable_node_insert_appends (fuel : nat) (h : heap) (b a : positive)
  (l : list entry) (ka : string) (va : Z) :
  chain h (Some b) l ->
  h !! a = Some (Node NULL ka va) ->
  a ∉ e_addr <$> l ->
  hashtable_node_insert fuel h (Some b) (Some a) <> Fault /\
  ((List.length l <= fuel)%nat ->
   exists h',
     hashtable_node_insert fuel h (Some b) (Some a) = Done h' /\
     chain h' (Some b) (l ++ [(a, ka, va)]) /\
     (forall x, x ∉ e_addr <$> l -> h' !! x = h !! x)).
Proof.
  intros Hc Ha Hnin.
  destruct (hashtable_node_insert_chain h l fuel b a ka va Hc Ha Hnin)
    as [(z & Hz & Hins)|[Hins Hlt]].
  - split; [rewrite Hins; discriminate|]. intros _.
    exists (link_last h z a ka va). split; [exact Hins|]. split.
    + now apply link_last_chain.
    + intros x Hx. apply (link_last_frame h z a ka va l x Ha); [|exact Hx].
      now apply last_Some_elem_of.
  - split; [rewrite Hins; discriminate|]. lia.
Qed.

Lemma hashtable_node_insert_appends_witness :
  exists h',
    hashtable_node_insert 1 linked_child_heap (Some 1%positive) (Some 3%positive) = Done h' /\
    chain h' (Some 1%positive) ([(1%positive, "p"%string, 1)] ++ [(3%positive, "x"%string, 3)]) /\
    (forall x, x ∉ e_addr <$> [(1%positive, "p"%string, 1)] -> h' !! x = linked_child_heap !! x).
Proof.
  apply (hashtable_node_insert_appends 1 linked_child_heap 1%positive 3%positive
           [(1%positive, "p"%string, 1)] "x" 3).
  - split; [reflexivity|]. exists NULL. split; [vm_compute; reflexivity|reflexivity].
  - vm_compute. reflexivity.
  - intros Hin. apply list_elem_of_singleton in Hin. discriminate.
  - simpl. lia.
Defined.

(** X7.  [hashtable_node_insert] does not check that the child is
    outside the chain: inserting a node that ends a chain behind
    itself makes its successor link point to itself, and from then on
    no search for a key the node does not store ever finishes. *)
Theorem hashtable_node_insert_self_cycle (fuel : nat) (h : heap) (a : positive)
  (n : hashtable_node_t) :
  h !! a = Some n ->
  next n = NULL ->
  exists h',
    hashtable_node_insert fuel h (Some a) (Some a) = Done h' /\
    h' !! a = Some (Node (Some a) (key n) (value n)) /\
    forall fuel' k,
      strncmp (key n) k HASHTABLE_KEY_SIZE <> 0 ->
      get_loop fuel' h' (Some a) k = Timeout /\
      find_loop fuel' h' (Some a) k = Timeout /\
      insert_walk fuel' h' (Some a) = Timeout.
Proof.
  intros Ha Hnx. unfold hashtable_node_insert, load, store_next.
  rewrite Ha. cbn [mbind outcome_bind]. rewrite Hnx.
  eexists. split; [reflexivity|]. split; [apply lookup_insert_eq|].
  intros fuel' k Hne. apply Z.eqb_neq in Hne.
  induction fuel' as [|fuel' (IH1 & IH2 & IH3)]; [now repeat split|].
  simpl. rewrite lookup_insert_eq. simpl. rewrite Hne. now repeat split.
Qed.

Lemma hashtable_node_insert_self_cycle_witness :
  exists h',
    hashtable_node_insert 0 linked_child_heap (Some 1%positive) (Some 1%positive) = Done h' /\
    h' !! 1%positive = Some (Node (Some 1%positive) "p" 1) /\
    forall fuel' k,
      strncmp "p" k HASHTABLE_KEY_SIZE <> 0 ->
      get_loop fuel' h' (Some 1%positive) k = Timeout /\
      find_loop fuel' h' (Some 1%positive) k = Timeout /\
      insert_walk fuel' h' (Some 1%positive) = Timeout.
Proof.
  apply (hashtable_node_insert_self_cycle 0 linked_child_heap 1%positive (Node NULL "p" 1)).
  - vm_compute. reflexivity.
  - reflexivity.
Defined.

(** X8.  A call of [hashtable_set] whose key no node of the bucket's
    chain matches (always so for a key of K bytes or more) appends: the
    chain keeps its nodes, in their order and with their keys and
    values, and the new node, holding the first K bytes of the key and
    the value, comes last. *)
Theorem hashtable_set_new_key_appends (sg : bool) (a : positive) (fuel : nat)
  (ht : hashtable_t) (h : heap) (k : string) (v r : Z) (ht' : hashtable_t) (h' : heap)
  (j : nat) (p : ptr) (l : list entry) :
  array ht !! j = Some p ->
  calculate_hash sg k = Z.of_nat j ->
  chain h p l ->
  h !! a = None ->
  ((HASHTABLE_KEY_SIZE <= strlen k)%nat \/
   forall e, e ∈ l -> strncmp (e_key e) k HASHTABLE_KEY_SIZE <> 0) ->
  hashtable_set sg (Some a) fuel ht h k v = Done (r, ht', h') ->
  exists p',
    array ht' !! j = Some p' /\
    chain h' p' (l ++ [(a, truncated k, v)]) /\
    (forall i, i <> j -> array ht' !! i = array ht !! i).
Proof.
  intros Hp Hj Hl Hfresh Hnew Hset.
  destruct (hashtable_set_bucket sg a fuel ht h k v r ht' h' j p l Hp Hj Hl Hfresh Hset)
    as (_ & p' & Harr & Hp' & Hc' & _).
  exists p'. split; [exact Hp'|]. split.
  - rewrite set_entries_no_match in Hc'; [exact Hc'|].
    destruct Hnew as [Hlong|Hno]; [now apply find_entries_long, strlen_long_strnlen|].
    clear -Hno. induction l as [|e l IH]; [reflexivity|]. simpl.
    unfold find_matches. rewrite (proj2 (Z.eqb_neq _ _)), andb_false_r.
    + apply IH. intros e' He'. apply Hno, elem_of_cons. auto.
    + apply Hno, elem_of_cons. auto.
  - intros i Hi. rewrite Harr. now apply list_lookup_insert_ne.
Qed.

Lemma hashtable_set_new_key_appends_witness :
  exists p',
    array (table_of after_erhd) !! 19%nat = Some p' /\
    chain (heap_of after_erhd) p'
      ([(1%positive, strncpy "eric" HASHTABLE_KEY_SIZE, 111)]
       ++ [(2%positive, truncated "erhd", 222)]) /\
    (forall i, i <> 19%nat ->
       array (table_of after_erhd) !! i = array (table_of after_eric) !! i).
Proof.
  apply (hashtable_set_new_key_appends true 2%positive 8
           (table_of after_eric) (heap_of after_eric) "erhd" 222 0
           (table_of after_erhd) (heap_of after_erhd) 19 (Some 1%positive)).
  - vm_compute. reflexivity.
  - vm_compute. reflexivity.
  - split; [reflexivity|]. exists NULL. split; [vm_compute; reflexivity|reflexivity].
  - vm_compute. reflexivity.
  - right. intros e He. apply list_elem_of_singleton in He. subst e. vm_compute. discriminate.
  - vm_compute. reflexivity.
Defined.

(** ** Memory: what is allocated and what is released *)

Section Allocation.

Variable sg : bool.

Lemma built_reachable h0 auxs ht h :
  built sg h0 auxs ht h -> reachable sg (fun _ => True) ht h.
Proof.
  induction 1 as [ht Hcreate|auxs ht h aux fuel k v r ht' h' _ IH Hfresh Hset].
  - now apply reach_create.
  - eapply reach_set; eauto.
Qed.

Lemma hashtable_set_dom a fuel ht h k v r ht' h' :
  table_ok ht h -> h !! a = None ->
  hashtable_set sg (Some a) fuel ht h k v = Done (r, ht', h') ->
  dom h' = {[a]} ∪ dom h.
Proof.
  intros Hok Hfresh Hset.
  destruct (hashtable_set_Done sg _ _ _ _ _ _ _ _ _ Hset)
    as [(Hn & _)|(a' & j & p & _ & _ & Hj & Hp)]; [discriminate|].
  destruct (proj2 Hok _ _ Hp) as [l Hl].
  destruct (hashtable_set_chain sg a fuel ht h k v j p l Hp Hj Hl Hfresh)
    as [(ht2 & h2 & p' & Hset' & _ & _ & _ & Hdom)|[Hset' _]];
    rewrite Hset in Hset'; [|discriminate].
  now injection Hset' as _ _ <-.
Qed.

Lemma built_nodes h0 auxs ht h :
  built sg h0 auxs ht h ->
  size h = (size h0 + List.length (allocated auxs))%nat /\
  (forall x, is_Some (h !! x) <-> x ∈ allocated auxs \/ is_Some (h0 !! x)).
Proof.
  induction 1 as [ht Hcreate|auxs ht h aux fuel k v r ht' h' Hb [IHs IHd] Hfresh Hset].
  - split; [replace (List.length (allocated [])) with 0%nat by reflexivity; lia|].
    intros x. split; [auto|]. intros [Hx|Hx]; [inversion Hx|exact Hx].
  - pose proof (table_wf_ok sg _ _ (reachable_table_wf sg _ _ _ (built_reachable _ _ _ _ Hb)))
      as Hok.
    destruct aux as [a|].
    + pose proof (hashtable_set_allocates sg a fuel ht h k v r ht' h' Hok Hfresh Hset) as Hs.
      pose proof (hashtable_set_dom a fuel ht h k v r ht' h' Hok Hfresh Hset) as Hd.
      change (allocated (Some a :: auxs)) with (a :: allocated auxs).
      split; [cbn [List.length]; lia|].
      intros x. rewrite <- elem_of_dom, Hd, elem_of_union, elem_of_singleton, elem_of_dom, IHd.
      rewrite elem_of_cons. tauto.
    + destruct (hashtable_set_Done sg _ _ _ _ _ _ _ _ _ Hset)
        as [(_ & _ & _ & ->)|(a' & _ & _ & Ha & _)]; [|discriminate].
      split; [exact IHs|exact IHd].
Qed.

End Allocation.

(** X9.  Nothing releases a node.  Take a table created at a free
    address [ta], then any sequence of [hashtable_set] calls, then
    [hashtable_destroy]: the call releases the table block alone (the
    table memory is as before the creation), while every block that
    [malloc] handed to a [hashtable_set] call is still allocated, and
    the node heap has grown by exactly the number of those blocks.
    [hashtable_destroy(NULL)] changes nothing, and destroying the same
    table twice is a fault. *)
Theorem destroy_releases_no_node (sg : bool) (ta : positive) (m0 : memory)
  (auxs : list ptr) (ht : hashtable_t) (h : heap) :
  tables m0 !! ta = None ->
  built sg (nodes m0) auxs ht h ->
  let m1 := (hashtable_create_in (Some ta) m0).2 in
  let m := Memory (<[ta := ht]> (tables m1)) h in
  tables m1 !! ta = Some fresh_table /\
  nodes m1 = nodes m0 /\
  hashtable_destroy (Some ta) m = Done (Memory (tables m0) h) /\
  size h = (size (nodes m0) + List.length (allocated auxs))%nat /\
  (forall a, a ∈ allocated auxs -> is_Some (h !! a)) /\
  hashtable_destroy NULL m = Done m /\
  hashtable_destroy (Some ta) (Memory (tables m0) h) = Fault.
Proof.
  intros Hta Hb m1 m. destruct (built_nodes sg _ _ _ _ Hb) as [Hsize Hdom].
  split; [apply lookup_insert_eq|]. split; [reflexivity|]. split.
  - unfold hashtable_destroy, m. cbn [tables nodes]. rewrite lookup_insert_eq.
    unfold m1. cbn [hashtable_create_in snd tables].
    rewrite insert_insert_eq, delete_insert_eq. now rewrite delete_id.
  - split; [exact Hsize|]. split; [intros a Ha; apply Hdom; auto|].
    split; [reflexivity|]. unfold hashtable_destroy. cbn [tables]. now rewrite Hta.
Qed.

Lemma built_after_john :
  built true ∅ [Some 3%positive; Some 2%positive; Some 1%positive]
    (table_of after_john) (heap_of after_john).
Proof.
  apply (built_set true ∅ _ (table_of after_erhd) (heap_of after_erhd)
           (Some 3%positive) 8 "john" 333 0).
  - apply (built_set true ∅ _ (table_of after_eric) (heap_of after_eric)
             (Some 2%positive) 8 "erhd" 222 0).
    + apply (built_set true ∅ _ fresh_table ∅ (Some 1%positive) 8 "eric" 111 0).
      * apply built_create. reflexivity.
      * reflexivity.
      * vm_compute. reflexivity.
    + vm_compute. reflexivity.
    + vm_compute. reflexivity.
  - vm_compute. reflexivity.
  - vm_compute. reflexivity.
Defined.

Lemma destroy_releases_no_node_witness :
  hashtable_destroy (Some 9%positive)
    (Memory (<[9%positive := table_of after_john]>
               (tables (hashtable_create_in (Some 9%positive) (Memory ∅ ∅)).2))
            (heap_of after_john))
    = Done (Memory ∅ (heap_of after_john)) /\
  size (heap_of after_john) = (size (∅ : heap) + 3)%nat.
Proof.
  pose proof (destroy_releases_no_node true 9%positive (Memory ∅ ∅) _ _ _
                (lookup_empty 9%positive) built_after_john) as H.
  cbv zeta in H. destruct H as (_ & _ & Hd & Hs & _). split; [exact Hd|exact Hs].
Defined.

(** X10.  When the key is already in the bucket, the node that
    [hashtable_set] allocated ends up in no chain of the table: it is
    in the heap, and every bucket's chain is made of nodes that were
    there before the call. *)
Theorem overwrite_leaves_node_unreachable (sg : bool) (ht : hashtable_t) (h : heap)
  (a : positive) (fuel : nat) (k : string) (v r : Z) (ht' : hashtable_t) (h' : heap)
  (j : nat) (p : ptr) (l : list entry) (e : entry) :
  reachable sg (fun _ => True) ht h ->
  h !! a = None ->
  short_key k ->
  calculate_hash sg k = Z.of_nat j -> array ht !! j = Some p -> chain h p l ->
  e ∈ l -> strncmp (e_key e) k HASHTABLE_KEY_SIZE = 0 ->
  hashtable_set sg (Some a) fuel ht h k v = Done (r, ht', h') ->
  is_Some (h' !! a) /\
  forall i q li, array ht' !! i = Some q -> chain h' q li ->
    (a ∉ e_addr <$> li) /\ (forall x, x ∈ e_addr <$> li -> is_Some (h !! x)).
Proof.
  intros Hreach Hfresh Hshort Hj Hp Hl He Hm Hset.
  pose proof (reachable_table_wf sg _ ht h Hreach) as Hwf.
  apply short_key_strnlen in Hshort.
  assert (Hfound : exists f, find_entries k l = Some f).
  { destruct (find_entries k l) as [f|] eqn:Ef; [eauto|].
    pose proof (find_entries_none k l e Ef He) as Hno.
    rewrite find_matches_short in Hno by exact Hshort.
    unfold get_matches in Hno. rewrite Hm in Hno. discriminate. }
  destruct Hfound as [f Hf].
  split.
  { apply elem_of_dom.
    rewrite (hashtable_set_dom sg a fuel ht h k v r ht' h' (table_wf_ok sg _ _ Hwf) Hfresh Hset).
    apply elem_of_union. left. now apply elem_of_singleton. }
  destruct (hashtable_set_bucket sg a fuel ht h k v r ht' h' j p l Hp Hj Hl Hfresh Hset)
    as (_ & p' & Harr & Hp' & Hc' & _).
  assert (Hold : forall i q li, array ht' !! i = Some q -> chain h' q li ->
                   forall x, x ∈ e_addr <$> li -> is_Some (h !! x)).
  { intros i q li Hq Hli x Hx. destruct (decide (i = j)) as [->|Hne].
    - rewrite Hp' in Hq. injection Hq as <-.
      rewrite (chain_functional _ _ _ _ Hli Hc') in Hx.
      rewrite (proj1 (set_entries_found a k v l f Hf)) in Hx.
      apply list_elem_of_fmap in Hx as (e' & -> & He').
      destruct (chain_lookup _ _ _ _ Hl He') as (nx & Hlk). eauto.
    - rewrite Harr, list_lookup_insert_ne in Hq by congruence.
      destruct (proj2 Hwf _ _ Hq) as (l0 & Hl0 & Hk0).
      destruct (hashtable_set_other_bucket sg a fuel ht h k v r ht' h' j i q l0
                  Hwf Hfresh Hj Hset Hne Hq Hl0 Hk0) as [_ Hc0].
      rewrite (chain_functional _ _ _ _ Hli Hc0) in Hx.
      apply list_elem_of_fmap in Hx as (e' & -> & He').
      destruct (chain_lookup _ _ _ _ Hl0 He') as (nx & Hlk). eauto. }
  intros i q li Hq Hli. split; [|now apply (Hold i q li)].
  intros Hin. destruct (Hold i q li Hq Hli a Hin) as [n Hn]. congruence.
Qed.

Lemma overwrite_leaves_node_unreachable_witness :
  is_Some (heap_of after_eric_again !! 2%positive) /\
  forall i q li,
    array (table_of after_eric_again) !! i = Some q ->
    chain (heap_of after_eric_again) q li ->
    (2%positive ∉ e_addr <$> li) /\
    (forall x, x ∈ e_addr <$> li -> is_Some (heap_of after_eric !! x)).
Proof.
  apply (overwrite_leaves_node_unreachable true (table_of after_eric) (heap_of after_eric)
           2%positive 8 "eric" 222 0 (table_of after_eric_again) (heap_of after_eric_again)
           19 (Some 1%positive) [(1%positive, strncpy "eric" HASHTABLE_KEY_SIZE, 111)]
           (1%positive, strncpy "eric" HASHTABLE_KEY_SIZE, 111)).
  - apply (reach_set true _ fresh_table ∅ (Some 1%positive) 8 "eric" 111 0).
    + apply reach_create. reflexivity.
    + exact I.
    + reflexivity.
    + vm_compute. reflexivity.
  - vm_compute. reflexivity.
  - vm_compute. lia.
  - vm_compute. reflexivity.
  - vm_compute. reflexivity.
  - split; [reflexivity|]. exists NULL. split; [vm_compute; reflexivity|reflexivity].
  - apply list_elem_of_singleton. reflexivity.
  - vm_compute. reflexivity.
  - vm_compute. reflexivity.
Defined.

(** ** Lookups *)

Lemma find_loop_get_loop fuel h k : forall p,
  (forall f, find_loop fuel h p k = Done (Some f) ->
     exists n, h !! f = Some n /\ strncmp (key n) k HASHTABLE_KEY_SIZE = 0 /\
               get_loop fuel h p k = Done (value n)) /\
  (find_loop fuel h p k = Done NULL -> get_loop fuel h p k = Done 0) /\
  (find_loop fuel h p k = Fault <-> get_loop fuel h p k = Fault) /\
  (find_loop fuel h p k = Timeout <-> get_loop fuel h p k = Timeout).
Proof.
  induction fuel as [|fuel IH]; intros [a|]; simpl;
    try (repeat split; (discriminate || reflexivity || (intros; discriminate))).
  destruct (h !! a) as [c|] eqn:Ha; simpl;
    [|repeat split; (discriminate || reflexivity || (intros; discriminate))].
  destruct (strncmp (key c) k HASHTABLE_KEY_SIZE =? 0) eqn:E.
  - apply Z.eqb_eq in E. split; [|repeat split; (discriminate || (intros; discriminate))].
    intros f [= <-]. eauto.
  - apply IH.
Qed.

(** X11.  The lookup of [hashtable_set] and the lookup of
    [hashtable_get] agree on keys shorter than K: when
    [hashtable_node_find_by_key] on the key's bucket returns a node,
    the node stores the key and [hashtable_get] returns that node's
    value; when it returns [NULL], [hashtable_get] returns 0. *)
Theorem find_and_get_agree (sg : bool) (fuel : nat) (ht : hashtable_t) (h : heap)
  (k : string) (p : ptr) :
  short_key k ->
  array_at ht (calculate_hash sg k) = Done p ->
  (forall f, hashtable_node_find_by_key fuel h p k = Done (Some f) ->
     exists n, h !! f = Some n /\ strncmp (key n) k HASHTABLE_KEY_SIZE = 0 /\
               hashtable_get sg fuel ht h k = Done (value n)) /\
  (hashtable_node_find_by_key fuel h p k = Done NULL ->
   hashtable_get sg fuel ht h k = Done 0).
Proof.
  intros Hshort Hat. apply short_key_strnlen in Hshort.
  unfold hashtable_node_find_by_key, hashtable_get. rewrite Hat. cbn [mbind outcome_bind].
  destruct (Nat.leb_spec HASHTABLE_KEY_SIZE (strnlen k HASHTABLE_KEY_SIZE)); [lia|].
  destruct (find_loop_get_loop fuel h k p) as (H1 & H2 & _). split; assumption.
Qed.

Lemma find_and_get_agree_witness :
  (forall f,
     hashtable_node_find_by_key 8 (heap_of after_erhd) (Some 1%positive) "erhd" = Done (Some f) ->
     exists n, heap_of after_erhd !! f = Some n /\
               strncmp (key n) "erhd" HASHTABLE_KEY_SIZE = 0 /\
               hashtable_get true 8 (table_of after_erhd) (heap_of after_erhd) "erhd"
                 = Done (value n)) /\
  (hashtable_node_find_by_key 8 (heap_of after_erhd) (Some 1%positive) "erhd" = Done NULL ->
   hashtable_get true 8 (table_of after_erhd) (heap_of after_erhd) "erhd" = Done 0).
Proof.
  apply (find_and_get_agree true 8 (table_of after_erhd) (heap_of after_erhd) "erhd"
           (Some 1%positive)).
  - vm_compute. lia.
  - vm_compute. reflexivity.
Defined.

(** ** The hash, again *)

(** X12.  In [calculate_hash] the running sum after any number of
    iterations lies between -128 and 255 times that number, so the
    [int] additions never overflow; the result lies strictly between
    -N and N; and it is a bucket index, 0 <= hash < N, whenever no byte
    among the first min(length, K) is negative as a [char], which is
    every key where [char] is unsigned. *)
Theorem calculate_hash_bounds (sg : bool) (k : string) :
  (forall i : nat,
     -128 * Z.of_nat i <= hash_loop sg k i 0 <= 255 * Z.of_nat i) /\
  - HASHTABLE_NODE_COUNT < calculate_hash sg k < HASHTABLE_NODE_COUNT /\
  (Forall (fun c => 0 <= char_to_int sg c) (key_prefix k) ->
   0 <= calculate_hash sg k < HASHTABLE_NODE_COUNT) /\
  (sg = false -> 0 <= calculate_hash sg k < HASHTABLE_NODE_COUNT).
Proof.
  split; [|split; [|split]].
  - intros i. rewrite hash_loop_sum.
    pose proof (byte_sum_bounds sg
      (take (Nat.min (strlen k) i) (list_ascii_of_string k))) as H.
    rewrite length_take in H. lia.
  - unfold calculate_hash, HASHTABLE_NODE_COUNT.
    pose proof (Z.rem_bound_abs (hash_loop sg k HASHTABLE_KEY_SIZE 0) 100). lia.
  - apply calculate_hash_index.
  - intros ->. apply calculate_hash_unsigned_index.
Qed.

Lemma calculate_hash_bounds_witness :
  0 <= calculate_hash true "eric" < HASHTABLE_NODE_COUNT /\
  0 <= calculate_hash false key_ff < HASHTABLE_NODE_COUNT.
Proof.
  split.
  - apply (proj1 (proj2 (proj2 (calculate_hash_bounds true "eric")))).
    vm_compute. repeat constructor; discriminate.
  - apply (proj2 (proj2 (proj2 (calculate_hash_bounds false key_ff)))). reflexivity.
Defined.

(** ** No fault on the tables the code builds *)

Section Termination.

Variable sg : bool.

Lemma set_entries_length_le a k v l :
  (List.length (set_entries a k v l) <= S (List.length l))%nat.
Proof.
  destruct (set_entries_keys_any a k v l) as [H|H];
    apply (f_equal (@List.length string)) in H;
    rewrite ?length_app, !length_fmap in H; simpl in H; lia.
Qed.

(** No chain is longer than the number of blocks [malloc] has handed
    to [hashtable_set]. *)
Lemma built_chain_length h0 auxs ht h :
  built sg h0 auxs ht h ->
  forall i p l, array ht !! i = Some p -> chain h p l ->
    (List.length l <= List.length (allocated auxs))%nat.
Proof.
  induction 1 as [ht Hcreate|auxs ht h aux fuel k v r ht' h' Hb IH Hfresh Hset];
    intros i q li Hq Hli.
  - injection Hcreate as <-. apply fresh_table_lookup in Hq. subst q.
    apply chain_null in Hli. subst li. simpl. lia.
  - pose proof (reachable_table_wf sg _ _ _ (built_reachable sg _ _ _ _ Hb)) as Hwf.
    destruct (hashtable_set_Done sg _ _ _ _ _ _ _ _ _ Hset)
      as [(-> & _ & -> & ->)|(a & j & p & -> & _ & Hj & Hp)]; [now apply (IH i q li)|].
    change (allocated (Some a :: auxs)) with (a :: allocated auxs). cbn [List.length].
    destruct (proj2 Hwf _ _ Hp) as (l & Hl & Hkl).
    destruct (hashtable_set_bucket sg a fuel ht h k v r ht' h' j p l Hp Hj Hl Hfresh Hset)
      as (_ & p' & Harr & Hp' & Hc' & _).
    destruct (decide (i = j)) as [->|Hne].
    + rewrite Hp' in Hq. injection Hq as <-.
      rewrite (chain_functional _ _ _ _ Hli Hc').
      pose proof (set_entries_length_le a k v l). pose proof (IH j p l Hp Hl). lia.
    + rewrite Harr, list_lookup_insert_ne in Hq by congruence.
      destruct (proj2 Hwf _ _ Hq) as (l0 & Hl0 & Hk0).
      destruct (hashtable_set_other_bucket sg a fuel ht h k v r ht' h' j i q l0
                  Hwf Hfresh Hj Hset Hne Hq Hl0 Hk0) as [_ Hc0].
      rewrite (chain_functional _ _ _ _ Hli Hc0).
      pose proof (IH i q l0 Hq Hl0). lia.
Qed.

(** [hashtable_set] and [hashtable_get] on a built table, for a key
    whose hash is not negative. *)
Lemma built_set_get h0 auxs ht h aux k v fuel :
  built sg h0 auxs ht h ->
  fresh_for aux h ->
  0 <= calculate_hash sg k ->
  hashtable_set sg aux fuel ht h k v <> Fault /\
  hashtable_get sg fuel ht h k <> Fault /\
  ((List.length (allocated auxs) <= fuel)%nat ->
   (exists ht' h',
      hashtable_set sg aux fuel ht h k v = Done (if aux is Some _ then 0 else -1, ht', h')) /\
   (exists x, hashtable_get sg fuel ht h k = Done x)).
Proof.
  intros Hb Hfresh Hk.
  pose proof (table_wf_ok sg _ _ (reachable_table_wf sg _ _ _ (built_reachable sg _ _ _ _ Hb)))
    as Hok.
  destruct (table_ok_bucket sg ht h k Hok Hk) as (j & p & l & Hj & Hp & Hl).
  pose proof (built_chain_length _ _ _ _ Hb j p l Hp Hl) as Hlen.
  split; [|split].
  - destruct aux as [a|]; [|discriminate].
    destruct (hashtable_set_chain sg a fuel ht h k v j p l Hp Hj Hl Hfresh)
      as [(ht2 & h2 & p' & Hset & _)|[Hset _]]; rewrite Hset; discriminate.
  - destruct (hashtable_get_chain sg fuel ht h k j p l Hp Hj Hl) as [Hg|[Hg _]];
      rewrite Hg; discriminate.
  - intros Hfuel. split.
    + destruct aux as [a|]; [|now exists ht, h].
      destruct (hashtable_set_chain sg a fuel ht h k v j p l Hp Hj Hl Hfresh)
        as [(ht2 & h2 & p' & Hset & _)|[_ Hlt]]; [eauto|lia].
    + destruct (hashtable_get_chain sg fuel ht h k j p l Hp Hj Hl) as [Hg|[_ Hlt]];
        [eauto|lia].
Qed.

End Termination.

(** X13.  On a table built by [hashtable_set] calls, for a key of any
    length whose hash is not negative: neither [hashtable_set] nor
    [hashtable_get] faults, whatever the number of iterations allowed;
    no chain is longer than the number of blocks [malloc] handed to
    the earlier calls, and once the iterations allowed reach that
    number both functions return; [hashtable_set] then returns -1
    exactly when [malloc] returned [NULL], and 0 otherwise. *)
Theorem built_no_fault (sg : bool) (h0 : heap) (auxs : list ptr) (ht : hashtable_t)
  (h : heap) (aux : ptr) (k : string) (v : Z) :
  built sg h0 auxs ht h ->
  fresh_for aux h ->
  0 <= calculate_hash sg k ->
  (forall i p l, array ht !! i = Some p -> chain h p l ->
     (List.length l <= List.length (allocated auxs))%nat) /\
  (forall fuel,
     hashtable_set sg aux fuel ht h k v <> Fault /\
     hashtable_get sg fuel ht h k <> Fault) /\
  (forall fuel, (List.length (allocated auxs) <= fuel)%nat ->
     (exists ht' h',
        hashtable_set sg aux fuel ht h k v
          = Done (if aux is Some _ then 0 else -1, ht', h')) /\
     (exists x, hashtable_get sg fuel ht h k = Done x)).
Proof.
  intros Hb Hfresh Hk. split; [now apply (built_chain_length sg h0)|]. split.
  - intros fuel.
    destruct (built_set_get sg h0 auxs ht h aux k v fuel Hb Hfresh Hk) as (H1 & H2 & _).
    now split.
  - intros fuel Hfuel.
    destruct (built_set_get sg h0 auxs ht h aux k v fuel Hb Hfresh Hk) as (_ & _ & H).
    apply H, Hfuel.
Qed.

Lemma built_no_fault_witness :
  (exists ht' h',
     hashtable_set true (Some 4%positive) 3 (table_of after_john) (heap_of after_john)
       long_key 9 = Done (0, ht', h')) /\
  (exists x,
     hashtable_get true 3 (table_of after_john) (heap_of after_john) long_key = Done x).
Proof.
  destruct (built_no_fault true ∅ _ (table_of after_john) (heap_of after_john)
              (Some 4%positive) long_key 9 built_after_john) as (_ & _ & H).
  - vm_compute. reflexivity.
  - vm_compute. discriminate.
  - apply (H 3%nat). simpl. lia.
Defined.

(** ** Releasing a node *)

(** X14.  [hashtable_node_free] undoes [hashtable_node_create]: the
    heap is as before the creation.  It releases the one block and
    nothing else, does nothing for [NULL], and releasing a block twice
    is a fault.  It unlinks nothing: after the head node of a chain is
    released, a search from the chain's head faults. *)
Theorem hashtable_node_free_releases (h : heap) (a : positive) :
  hashtable_node_free h NULL = Done h /\
  (h !! a = None ->
   forall k v,
     hashtable_node_free (hashtable_node_create (Some a) k v h).2 (Some a) = Done h) /\
  (is_Some (h !! a) ->
   exists h',
     hashtable_node_free h (Some a) = Done h' /\
     h' !! a = None /\
     (forall x, x <> a -> h' !! x = h !! x) /\
     hashtable_node_free h' (Some a) = Fault /\
     forall fuel k,
       get_loop (S fuel) h' (Some a) k = Fault /\
       find_loop (S fuel) h' (Some a) k = Fault).
Proof.
  split; [reflexivity|]. split.
  - intros Hfresh k v. unfold hashtable_node_create, hashtable_node_free. cbn [snd].
    rewrite lookup_insert_eq, delete_insert_eq. now rewrite delete_id.
  - intros [n Hn]. unfold hashtable_node_free. rewrite Hn.
    exists (delete a h). split; [reflexivity|]. split; [apply lookup_delete_eq|].
    split; [intros x Hx; apply lookup_delete_ne; congruence|].
    rewrite lookup_delete_eq. split; [reflexivity|].
    intros fuel k. simpl. rewrite lookup_delete_eq. split; reflexivity.
Qed.

Lemma hashtable_node_free_releases_witness :
  (forall k v,
     hashtable_node_free (hashtable_node_create (Some 7%positive) k v linked_child_heap).2
       (Some 7%positive) = Done linked_child_heap) /\
  exists h',
    hashtable_node_free linked_child_heap (Some 1%positive) = Done h' /\
    h' !! 1%positive = None /\
    (forall x, x <> 1%positive -> h' !! x = linked_child_heap !! x) /\
    hashtable_node_free h' (Some 1%positive) = Fault /\
    forall fuel k,
      get_loop (S fuel) h' (Some 1%positive) k = Fault /\
      find_loop (S fuel) h' (Some 1%positive) k = Fault.
Proof.
  split.
  - apply (proj1 (proj2 (hashtable_node_free_releases linked_child_heap 7%positive))).
    vm_compute. reflexivity.
  - apply (proj2 (proj2 (hashtable_node_free_releases linked_child_heap 1%positive))).
    vm_compute. eauto.
Defined.

(** ** The program *)

Section MainFacts.

Variable sg : bool.

Lemma hashtable_set_in_built h0 auxs t h aux fuel ta ts k v :
  built sg h0 auxs t h ->
  fresh_for aux h ->
  0 <= calculate_hash sg k ->
  (List.length (allocated auxs) <= fuel)%nat ->
  ts !! ta = Some t ->
  exists r t' h',
    hashtable_set_in sg aux fuel (Some ta) (Memory ts h) k v
      = Done (r, Memory (<[ta := t']> ts) h') /\
    built sg h0 (aux :: auxs) t' h'.
Proof.
  intros Hb Hfresh Hk Hfuel Hts.
  destruct (built_set_get sg h0 auxs t h aux k v fuel Hb Hfresh Hk) as (_ & _ & H).
  destruct (H Hfuel) as [(t' & h' & Hset) _].
  destruct aux as [a|].
  - exists 0, t', h'. split.
    + unfold hashtable_set_in. cbn [tables nodes]. rewrite Hts, Hset. reflexivity.
    + apply (built_set sg h0 auxs t h (Some a) fuel k v 0 t' h' Hb Hfresh Hset).
  - exists (-1), t, h. split.
    + unfold hashtable_set_in. now rewrite insert_id.
    + apply (built_set sg h0 auxs t h NULL fuel k v (-1) t h Hb Hfresh). reflexivity.
Qed.

Lemma hashtable_get_in_built h0 auxs t h fuel ta ts k :
  built sg h0 auxs t h ->
  0 <= calculate_hash sg k ->
  (List.length (allocated auxs) <= fuel)%nat ->
  ts !! ta = Some t ->
  exists x, hashtable_get_in sg fuel (Some ta) (Memory ts h) k = Done x.
Proof.
  intros Hb Hk Hfuel Hts.
  destruct (built_set_get sg h0 auxs t h NULL k 0 fuel Hb I Hk) as (_ & _ & H).
  destruct (H Hfuel) as [_ [x Hget]].
  exists x. unfold hashtable_get_in. cbn [tables nodes]. now rewrite Hts.
Qed.

Lemma main_keys_hash :
  0 <= calculate_hash sg "eric" /\ 0 <= calculate_hash sg "erhd" /\
  0 <= calculate_hash sg "john".
Proof. destruct sg; vm_compute; repeat split; discriminate. Qed.

Lemma allocated_length_le (auxs : list ptr) :
  (List.length (allocated auxs) <= List.length auxs)%nat.
Proof.
  induction auxs as [|[a|] auxs IH]; [simpl; lia| |].
  - change (allocated (Some a :: auxs)) with (a :: allocated auxs). simpl. lia.
  - change (allocated (None :: auxs)) with (allocated auxs). simpl. lia.
Qed.

Lemma built_fresh_next h0 auxs t h aux :
  built sg h0 auxs t h ->
  (forall a, aux = Some a -> (a ∉ allocated auxs) /\ h0 !! a = None) ->
  fresh_for aux h.
Proof.
  intros Hb Haux. destruct aux as [a|]; [|exact I].
  destruct (Haux a eq_refl) as [Hnin H0]. simpl.
  destruct (h !! a) as [n|] eqn:E; [|reflexivity].
  destruct (proj1 (proj2 (built_nodes sg _ _ _ _ Hb) a)) as [Hin|[n0 Hn0]]; [eauto| |].
  - contradiction.
  - congruence.
Qed.

End MainFacts.

(** X15.  [main] runs to its end whatever the four calls of [malloc]
    return (blocks not in use, the node blocks pairwise different), for
    signed and unsigned [char]: without a table block it returns -1 and
    leaves the memory as it was; otherwise it returns 0 even when calls
    of [hashtable_set] failed, never faults, has released the table
    block, and has left in the node heap every node block [malloc]
    handed out. *)
Theorem main_returns (sg : bool) (t_aux n1 n2 n3 : ptr) (fuel : nat) (m : memory) :
  (3 <= fuel)%nat ->
  (forall ta, t_aux = Some ta -> tables m !! ta = None) ->
  NoDup (allocated [n1; n2; n3]) ->
  (forall a, a ∈ allocated [n1; n2; n3] -> nodes m !! a = None) ->
  exists m',
    main sg t_aux n1 n2 n3 fuel m = Done (if t_aux is Some _ then 0 else -1, m') /\
    tables m' = tables m /\
    (t_aux = NULL -> m' = m) /\
    (t_aux <> NULL ->
     size (nodes m') = (size (nodes m) + List.length (allocated [n1; n2; n3]))%nat /\
     forall a, a ∈ allocated [n1; n2; n3] -> is_Some (nodes m' !! a)).
Proof.
  intros Hfuel Hta Hnd Hfresh.
  destruct t_aux as [ta|]; [|exists m; repeat split; congruence].
  specialize (Hta ta eq_refl).
  destruct (main_keys_hash sg) as (Hk1 & Hk2 & Hk3).
  unfold main, hashtable_create_in. destruct m as [ts h0]. cbn [tables nodes] in *.
  change (Table (replicate (Z.to_nat HASHTABLE_NODE_COUNT) NULL)) with fresh_table.
  assert (B0 : built sg h0 [] fresh_table h0) by (now apply built_create).
  assert (F1 : fresh_for n1 h0).
  { apply (built_fresh_next sg h0 [] fresh_table h0 n1 B0). intros a ->. split.
    - inversion 1.
    - apply Hfresh. apply elem_of_cons. now left. }
  destruct (hashtable_set_in_built sg h0 [] fresh_table h0 n1 fuel ta
              (<[ta := fresh_table]> ts) "eric" 111 B0 F1 Hk1)
    as (r1 & t1 & h1 & E1 & B1);
    [change (allocated []) with (@nil positive); simpl; lia|apply lookup_insert_eq|].
  rewrite E1. cbn [mbind outcome_bind]. rewrite insert_insert_eq.
  assert (F2 : fresh_for n2 h1).
  { apply (built_fresh_next sg h0 [n1] t1 h1 n2 B1). intros a ->. split.
    - destruct n1 as [a1|]; [|inversion 1].
      change (allocated [Some a1]) with [a1]. intros Hin.
      apply list_elem_of_singleton in Hin. subst a1.
      change (allocated [Some a; Some a; n3]) with (a :: a :: allocated [n3]) in Hnd.
      apply NoDup_cons in Hnd as [Hnin _]. apply Hnin, elem_of_cons. now left.
    - apply Hfresh. destruct n1 as [a1|].
      + change (allocated [Some a1; Some a; n3]) with (a1 :: a :: allocated [n3]).
        apply elem_of_cons. right. apply elem_of_cons. now left.
      + change (allocated [None; Some a; n3]) with (a :: allocated [n3]).
        apply elem_of_cons. now left. }
  assert (L1 : (List.length (allocated [n1]) <= 1)%nat) by apply (allocated_length_le [n1]).
  destruct (hashtable_set_in_built sg h0 [n1] t1 h1 n2 fuel ta
              (<[ta := t1]> ts) "erhd" 222 B1 F2 Hk2)
    as (r2 & t2 & h2 & E2 & B2); [lia|apply lookup_insert_eq|].
  rewrite E2. cbn [mbind outcome_bind]. rewrite insert_insert_eq.
  assert (Hperm : forall x, x ∈ allocated [n3; n2; n1] <-> x ∈ allocated [n1; n2; n3]).
  { intros x. destruct n1 as [a1|], n2 as [a2|], n3 as [a3|]; unfold allocated; simpl;
      rewrite ?elem_of_cons; tauto. }
  assert (F3 : fresh_for n3 h2).
  { apply (built_fresh_next sg h0 [n2; n1] t2 h2 n3 B2). intros a ->. split.
    - intros Hin. clear -Hnd Hin.
      destruct n1 as [a1|], n2 as [a2|]; unfold allocated in *; simpl in *;
        rewrite ?NoDup_cons, ?elem_of_cons, ?elem_of_nil in *; intuition congruence.
    - apply Hfresh. clear. destruct n1 as [a1|], n2 as [a2|]; unfold allocated; simpl;
        rewrite ?elem_of_cons; tauto. }
  assert (L2 : (List.length (allocated [n2; n1]) <= 2)%nat)
    by apply (allocated_length_le [n2; n1]).
  destruct (hashtable_set_in_built sg h0 [n2; n1] t2 h2 n3 fuel ta
              (<[ta := t2]> ts) "john" 333 B2 F3 Hk3)
    as (r3 & t3 & h3 & E3 & B3); [lia|apply lookup_insert_eq|].
  rewrite E3. cbn [mbind outcome_bind]. rewrite insert_insert_eq.
  assert (L3 : (List.length (allocated [n3; n2; n1]) <= 3)%nat)
    by apply (allocated_length_le [n3; n2; n1]).
  assert (Hts3 : <[ta := t3]> ts !! ta = Some t3) by apply lookup_insert_eq.
  destruct (hashtable_get_in_built sg h0 _ t3 h3 fuel ta (<[ta := t3]> ts) "eric" B3 Hk1) as [x1 G1];
    [lia|exact Hts3|].
  destruct (hashtable_get_in_built sg h0 _ t3 h3 fuel ta (<[ta := t3]> ts) "erhd" B3 Hk2) as [x2 G2];
    [lia|exact Hts3|].
  destruct (hashtable_get_in_built sg h0 _ t3 h3 fuel ta (<[ta := t3]> ts) "john" B3 Hk3) as [x3 G3];
    [lia|exact Hts3|].
  rewrite G1. cbn [mbind outcome_bind]. rewrite G2. cbn [mbind outcome_bind].
  rewrite G3. cbn [mbind outcome_bind].
  unfold hashtable_destroy. cbn [tables nodes]. rewrite Hts3. cbn [mbind outcome_bind].
  eexists. split; [reflexivity|]. cbn [tables nodes].
  split; [rewrite delete_insert_eq; now apply delete_id|].
  split; [discriminate|]. intros _.
  destruct (built_nodes sg _ _ _ _ B3) as [Hsize Hdom]. split.
  - rewrite Hsize. f_equal. clear.
    destruct n1 as [a1|], n2 as [a2|], n3 as [a3|]; reflexivity.
  - intros a Ha. apply Hdom. left. now apply Hperm.
Qed.

Lemma main_returns_witness :
  exists m',
    main true (Some 9%positive) (Some 1%positive) NULL (Some 3%positive) 3 (Memory ∅ ∅)
      = Done (0, m') /\
    tables m' = ∅ /\
    size (nodes m') = 2%nat.
Proof.
  destruct (main_returns true (Some 9%positive) (Some 1%positive) NULL (Some 3%positive) 3
              (Memory ∅ ∅)) as (m' & Hmain & Ht & _ & Hn).
  - lia.
  - intros ta _. apply lookup_empty.
  - change (NoDup [1%positive; 3%positive]). apply NoDup_cons. split.
    + intros H. apply list_elem_of_singleton in H. discriminate.
    + apply NoDup_singleton.
  - intros a _. apply lookup_empty.
  - exists m'. split; [exact Hmain|]. split; [exact Ht|].
    destruct Hn as [Hs _]; [discriminate|exact Hs].
Defined.

(** ** Overwriting in place *)

Lemma set_entries_split a k v l f :
  find_entries k l = Some f ->
  exists l1 e l2,
    l = l1 ++ e :: l2 /\ e_addr e = f /\
    (forall e', e' ∈ l1 -> find_matches k (e_key e') = false) /\
    find_matches k (e_key e) = true /\
    set_entries a k v l = l1 ++ (e_addr e, e_key e, v) :: l2.
Proof.
  induction l as [|e0 l IH]; simpl; [discriminate|].
  destruct (find_matches k (e_key e0)) eqn:E.
  - intros [= <-]. exists [], e0, l. repeat split; auto. inversion 1.
  - intros Hf. destruct (IH Hf) as (l1 & e & l2 & -> & Ha & Hno & Hm & Hs).
    exists (e0 :: l1), e, l2. rewrite Hs. repeat split; auto.
    intros e' He'. apply elem_of_cons in He' as [->|He']; auto.
Qed.

(** X16.  A call of [hashtable_set] with a key shorter than K that some
    node of the bucket's chain stores changes one thing in the table:
    the value of the first such node.  The chain keeps its nodes, at
    their addresses, in their order and with their keys; the nodes
    before the first match and after it keep their values; the other
    buckets keep their heads. *)
Theorem hashtable_set_overwrites_in_place (sg : bool) (a : positive) (fuel : nat)
  (ht : hashtable_t) (h : heap) (k : string) (v r : Z) (ht' : hashtable_t) (h' : heap)
  (j : nat) (p : ptr) (l : list entry) (e0 : entry) :
  array ht !! j = Some p ->
  calculate_hash sg k = Z.of_nat j ->
  chain h p l ->
  h !! a = None ->
  short_key k ->
  e0 ∈ l -> strncmp (e_key e0) k HASHTABLE_KEY_SIZE = 0 ->
  hashtable_set sg (Some a) fuel ht h k v = Done (r, ht', h') ->
  exists l1 e l2,
    l = l1 ++ e :: l2 /\
    (forall e', e' ∈ l1 -> strncmp (e_key e') k HASHTABLE_KEY_SIZE <> 0) /\
    strncmp (e_key e) k HASHTABLE_KEY_SIZE = 0 /\
    array ht' = array ht /\
    chain h' p (l1 ++ (e_addr e, e_key e, v) :: l2).
Proof.
  intros Hp Hj Hl Hfresh Hshort He0 Hm Hset. apply short_key_strnlen in Hshort.
  assert (Hfound : exists f, find_entries k l = Some f).
  { destruct (find_entries k l) as [f|] eqn:Ef; [eauto|].
    pose proof (find_entries_none k l e0 Ef He0) as Hno.
    rewrite find_matches_short in Hno by exact Hshort.
    unfold get_matches in Hno. rewrite Hm in Hno. discriminate. }
  destruct Hfound as [f Hf].
  destruct (set_entries_split a k v l f Hf) as (l1 & e & l2 & Hsplit & Ha & Hno & Hyes & Hs).
  destruct (hashtable_set_bucket sg a fuel ht h k v r ht' h' j p l Hp Hj Hl Hfresh Hset)
    as (_ & p' & Harr & Hp' & Hc' & _).
  assert (Hpp : p' = p).
  { rewrite Hs in Hc'. rewrite Hsplit in Hl.
    destruct l1 as [|e1 l1]; simpl in Hc', Hl;
      destruct Hc' as [-> _]; destruct Hl as [-> _]; reflexivity. }
  subst p'. exists l1, e, l2. split; [exact Hsplit|]. split; [|split; [|split]].
  - intros e' He'. specialize (Hno e' He').
    rewrite find_matches_short in Hno by exact Hshort.
    unfold get_matches in Hno. now apply Z.eqb_neq.
  - rewrite find_matches_short in Hyes by exact Hshort.
    unfold get_matches in Hyes. now apply Z.eqb_eq.
  - rewrite Harr. now apply list_insert_id.
  - now rewrite <- Hs.
Qed.

Lemma hashtable_set_overwrites_in_place_witness :
  exists l1 e l2,
    [(1%positive, strncpy "eric" HASHTABLE_KEY_SIZE, 111)] = l1 ++ e :: l2 /\
    (forall e', e' ∈ l1 -> strncmp (e_key e') "eric" HASHTABLE_KEY_SIZE <> 0) /\
    strncmp (e_key e) "eric" HASHTABLE_KEY_SIZE = 0 /\
    array (table_of after_eric_again) = array (table_of after_eric) /\
    chain (heap_of after_eric_again) (Some 1%positive)
      (l1 ++ (e_addr e, e_key e, 222) :: l2).
Proof.
  apply (hashtable_set_overwrites_in_place true 2%positive 8
           (table_of after_eric) (heap_of after_eric) "eric" 222 0
           (table_of after_eric_again) (heap_of after_eric_again) 19 (Some 1%positive)
           [(1%positive, strncpy "eric" HASHTABLE_KEY_SIZE, 111)]
           (1%positive, strncpy "eric" HASHTABLE_KEY_SIZE, 111)).
  - vm_compute. reflexivity.
  - vm_compute. reflexivity.
  - split; [reflexivity|]. exists NULL. split; [vm_compute; reflexivity|reflexivity].
  - vm_compute. reflexivity.
  - vm_compute. lia.
  - apply list_elem_of_singleton. reflexivity.
  - vm_compute. reflexivity.
  - vm_compute. reflexivity.
Defined.

(** ** When the code faults *)

(** X17.  On a table built by [hashtable_set] calls the two public
    operations fault in one situation only, a negative hash:
    [hashtable_get] faults exactly when the hash of the key is
    negative, and [hashtable_set] exactly when the hash is negative and
    [malloc] returned a block (with [NULL] it returns -1 before it
    reads the array). *)
Theorem fault_iff_negative_hash (sg : bool) (h0 : heap) (auxs : list ptr)
  (ht : hashtable_t) (h : heap) (aux : ptr) (fuel : nat) (k : string) (v : Z) :
  built sg h0 auxs ht h ->
  fresh_for aux h ->
  (hashtable_get sg fuel ht h k = Fault <-> calculate_hash sg k < 0) /\
  (hashtable_set sg aux fuel ht h k v = Fault <->
   calculate_hash sg k < 0 /\ aux <> NULL).
Proof.
  intros Hb Hfresh.
  destruct (Z.lt_ge_cases (calculate_hash sg k) 0) as [Hneg|Hpos].
  - assert (Hat : array_at ht (calculate_hash sg k) = Fault).
    { unfold array_at. destruct (Z.leb_spec 0 (calculate_hash sg k)); [lia|reflexivity]. }
    split.
    + unfold hashtable_get. rewrite Hat. tauto.
    + unfold hashtable_set, hashtable_node_create. destruct aux as [a|].
      * rewrite Hat. split; [intros _; split; [exact Hneg|discriminate]|reflexivity].
      * split; [discriminate|]. intros [_ H]. now contradiction H.
  - destruct (built_set_get sg h0 auxs ht h aux k v fuel Hb Hfresh Hpos) as (Hs & Hg & _).
    split; split; try contradiction; lia.
Qed.

Lemma fault_iff_negative_hash_witness :
  hashtable_get true 8 (table_of after_john) (heap_of after_john) key_utf8 = Fault /\
  hashtable_set true (Some 4%positive) 8 (table_of after_john) (heap_of after_john)
    key_utf8 5 = Fault.
Proof.
  destruct (fault_iff_negative_hash true ∅ _ (table_of after_john) (heap_of after_john)
              (Some 4%positive) 8 key_utf8 5 built_after_john) as [Hg Hs].
  - vm_compute. reflexivity.
  - split.
    + apply Hg. vm_compute. reflexivity.
    + apply Hs. split; [vm_compute; reflexivity|discriminate].
Defined.
